(** * doc-site: a shallow embedding of [src/App.jsx]

    The application is one React component tree.  Its eight [useState]
    cells form the record [AppState]; every event handler of the JSX is
    a pure function on that record; the [useMemo] that derives the
    filtered catalog, the [FileTree]/[FolderGroup] components and the
    theme effect are embedded as functions on the data they read.

    The strings that the code copies, compares and measures (paths,
    folder names, ids, class names) are modelled by Rocq's [string]: a
    sequence of 8-bit units, read as the UTF-16 code units 0..255
    (Latin-1).  The two strings that the code lower-cases and searches,
    the display name of a file and the search term, are sequences of
    UTF-16 code units of any value, [list N].
    [String.prototype.toLowerCase] is not code of this repository and
    follows the Unicode tables; it is the method of the class
    [LowerCase], of which the theorems assume what every lower-casing
    does and nothing more. *)

From Stdlib Require Import ZArith List Ascii String Permutation Sorted Lia.
From stdpp Require Import gmap strings list.
Import ListNotations.
Local Open Scope string_scope.
Local Open Scope list_scope.

(** ** JavaScript string primitives used by the source *)

(** [s.startsWith(p)] on a Rocq string. *)
Fixpoint startsWith (s p : string) {struct p} : bool :=
  match p, s with
  | EmptyString, _ => true
  | String _ _, EmptyString => false
  | String c p', String d s' => if Ascii.eqb c d then startsWith s' p' else false
  end.

(** [!s] for a string [s]: only the empty string is falsy. *)
Definition falsy (s : string) : bool :=
  match s with EmptyString => true | String _ _ => false end.

(** The code units of a Latin-1 literal. *)
Definition u (s : string) : list N :=
  map N_of_ascii (list_ascii_of_string s).

(** [!s] for a sequence of code units. *)
Definition falsyUnits (s : list N) : bool :=
  match s with [] => true | _ :: _ => false end.

(** [s.startsWith(p)] on code units, the inner test of [includes]. *)
Fixpoint startsWithUnits (s p : list N) {struct p} : bool :=
  match p, s with
  | [], _ => true
  | _ :: _, [] => false
  | c :: p', d :: s' => if (c =? d)%N then startsWithUnits s' p' else false
  end.

(** [s.includes(p)]: [p] occurs in [s] at some index. *)
Fixpoint includes (s p : list N) : bool :=
  startsWithUnits s p ||
  match s with
  | [] => false
  | _ :: s' => includes s' p
  end.

(** [String.prototype.toLowerCase].  The two laws hold of every
    lower-casing: the empty string stays empty and no other string
    becomes empty. *)
Class LowerCase := {
  toLowerCase : list N -> list N;
  toLowerCase_nil : toLowerCase [] = [];
  toLowerCase_nonempty : forall s, s <> [] -> toLowerCase s <> [] }.

(** ** A lower-casing for the examples

    [sampleLower] is [toLowerCase] on the strings whose units are in
    Basic Latin, in the Latin-1 Supplement, the Greek letters
    U+0391..U+03A9 and U+03B1..U+03C9, U+0130 or U+0307; units outside
    these are left as they are.  It is used at explicit inputs only. *)

(** The property Cased on those units. *)
Definition isCased (c : N) : bool :=
  (((0x41 <=? c) && (c <=? 0x5A)) || ((0x61 <=? c) && (c <=? 0x7A))
   || (c =? 0xAA) || (c =? 0xB5) || (c =? 0xBA)
   || ((0xC0 <=? c) && (c <=? 0xD6)) || ((0xD8 <=? c) && (c <=? 0xF6))
   || ((0xF8 <=? c) && (c <=? 0xFF)) || (c =? 0x130)
   || ((0x391 <=? c) && (c <=? 0x3A1)) || ((0x3A3 <=? c) && (c <=? 0x3A9))
   || ((0x3B1 <=? c) && (c <=? 0x3C9)))%N.

(** The property Case_Ignorable on those units. *)
Definition isCaseIgnorable (c : N) : bool :=
  ((c =? 0x27) || (c =? 0x2E) || (c =? 0x3A) || (c =? 0x5E) || (c =? 0x60)
   || (c =? 0xA8) || (c =? 0xAD) || (c =? 0xAF) || (c =? 0xB4) || (c =? 0xB7)
   || (c =? 0xB8) || (c =? 0x307))%N.

(** The simple mapping: A-Z, the Latin-1 capitals U+00C0..U+00DE but
    for the multiplication sign, and the Greek capitals but for sigma
    move up by 32. *)
Definition lowerUnit (c : N) : N :=
  if (((0x41 <=? c) && (c <=? 0x5A)) || ((0xC0 <=? c) && (c <=? 0xD6))
      || ((0xD8 <=? c) && (c <=? 0xDE))
      || ((0x391 <=? c) && (c <=? 0x3A1)) || ((0x3A4 <=? c) && (c <=? 0x3A9)))%N
  then (c + 32)%N else c.

(** A cased letter follows, case-ignorable units skipped. *)
Fixpoint casedFollows (s : list N) : bool :=
  match s with
  | [] => false
  | c :: s' => if isCaseIgnorable c then casedFollows s' else isCased c
  end.

(** [before]: a cased letter stands before, case-ignorable units
    skipped.  Capital sigma becomes the final sigma U+03C2 when a cased
    letter stands before it and none follows, and U+03C3 otherwise;
    U+0130 becomes an i and a combining dot. *)
Fixpoint lowerFrom (before : bool) (s : list N) : list N :=
  match s with
  | [] => []
  | c :: s' =>
      (if (c =? 0x3A3)%N
       then (if before && negb (casedFollows s') then [0x3C2%N] else [0x3C3%N])
       else if (c =? 0x130)%N then [0x69%N; 0x307%N]
       else [lowerUnit c])
      ++ lowerFrom (if isCaseIgnorable c then before else isCased c) s'
  end.

Definition sampleLower (s : list N) : list N := lowerFrom false s.

#[global, refine] Instance sampleLowerCase : LowerCase :=
  {| toLowerCase := sampleLower |}.
Proof.
  - reflexivity.
  - intros [|c s] H; [contradiction|]. unfold sampleLower. cbn [lowerFrom].
    destruct (c =? 0x3A3)%N; [destruct (false && _)|destruct (c =? 0x130)%N];
      discriminate.
Defined.

(** ** The catalog ([docData.json]) *)

Record FileRecord := {
  path : string;
  name : list N;
  explanation : string;
  code : string }.

Record folderGroup := {
  folder : string;
  files : list FileRecord }.

Definition Catalog := list folderGroup.

#[global] Instance FileRecord_eq_dec : EqDecision FileRecord.
Proof. solve_decision. Defined.

#[global] Instance folderGroup_eq_dec : EqDecision folderGroup.
Proof. solve_decision. Defined.

(** ** Configuration tables *)

Record Theme := { th_id : string; th_name : string; th_isDark : bool }.

Record Accent := {
  ac_id : string; ac_name : string; ac_color : string; ac_dim : string }.

#[global] Instance Theme_eq_dec : EqDecision Theme.
Proof. solve_decision. Defined.

#[global] Instance Accent_eq_dec : EqDecision Accent.
Proof. solve_decision. Defined.

Definition THEMES : list Theme :=
  [ {| th_id := "light";     th_name := "Light";       th_isDark := false |};
    {| th_id := "github";    th_name := "GitHub Dark"; th_isDark := true |};
    {| th_id := "vscode";    th_name := "VS Code";     th_isDark := true |};
    {| th_id := "dracula";   th_name := "Dracula";     th_isDark := true |};
    {| th_id := "solarized"; th_name := "Solarized";   th_isDark := false |} ].

Definition ACCENTS : list Accent :=
  [ {| ac_id := "blue";    ac_name := "Blue";    ac_color := "#2563eb";
       ac_dim := "rgba(37, 99, 235, 0.15)" |};
    {| ac_id := "purple";  ac_name := "Purple";  ac_color := "#9333ea";
       ac_dim := "rgba(147, 51, 234, 0.15)" |};
    {| ac_id := "emerald"; ac_name := "Emerald"; ac_color := "#059669";
       ac_dim := "rgba(5, 150, 105, 0.15)" |};
    {| ac_id := "orange";  ac_name := "Orange";  ac_color := "#ea580c";
       ac_dim := "rgba(234, 88, 12, 0.15)" |};
    {| ac_id := "rose";    ac_name := "Rose";    ac_color := "#e11d48";
       ac_dim := "rgba(225, 29, 72, 0.15)" |} ].

(** The four style tables imported from the highlighter package. *)
Inductive SyntaxStyle := vscDarkPlus | ghcolors | dracula | solarizedlight.

(** ** The state of [App] *)

Record AppState := {
  selectedFile : option FileRecord;
  viewMode : string;
  currentTheme : string;
  currentAccent : string;
  searchTerm : list N;
  sidebarWidth : Z;
  isResizing : bool;
  mobileMenuOpen : bool }.

(** The arguments of the eight [useState] calls. *)
Definition initialState : AppState :=
  {| selectedFile := None;
     viewMode := "explanation";
     currentTheme := "github";
     currentAccent := "emerald";
     searchTerm := [];
     sidebarWidth := 280;
     isResizing := false;
     mobileMenuOpen := false |}.

Definition setSelectedFile (v : option FileRecord) (s : AppState) : AppState :=
  {| selectedFile := v; viewMode := viewMode s;
     currentTheme := currentTheme s; currentAccent := currentAccent s;
     searchTerm := searchTerm s; sidebarWidth := sidebarWidth s;
     isResizing := isResizing s; mobileMenuOpen := mobileMenuOpen s |}.

Definition setViewMode (v : string) (s : AppState) : AppState :=
  {| selectedFile := selectedFile s; viewMode := v;
     currentTheme := currentTheme s; currentAccent := currentAccent s;
     searchTerm := searchTerm s; sidebarWidth := sidebarWidth s;
     isResizing := isResizing s; mobileMenuOpen := mobileMenuOpen s |}.

Definition setCurrentTheme (v : string) (s : AppState) : AppState :=
  {| selectedFile := selectedFile s; viewMode := viewMode s;
     currentTheme := v; currentAccent := currentAccent s;
     searchTerm := searchTerm s; sidebarWidth := sidebarWidth s;
     isResizing := isResizing s; mobileMenuOpen := mobileMenuOpen s |}.

Definition setCurrentAccent (v : string) (s : AppState) : AppState :=
  {| selectedFile := selectedFile s; viewMode := viewMode s;
     currentTheme := currentTheme s; currentAccent := v;
     searchTerm := searchTerm s; sidebarWidth := sidebarWidth s;
     isResizing := isResizing s; mobileMenuOpen := mobileMenuOpen s |}.

Definition setSearchTerm (v : list N) (s : AppState) : AppState :=
  {| selectedFile := selectedFile s; viewMode := viewMode s;
     currentTheme := currentTheme s; currentAccent := currentAccent s;
     searchTerm := v; sidebarWidth := sidebarWidth s;
     isResizing := isResizing s; mobileMenuOpen := mobileMenuOpen s |}.

Definition setSidebarWidth (v : Z) (s : AppState) : AppState :=
  {| selectedFile := selectedFile s; viewMode := viewMode s;
     currentTheme := currentTheme s; currentAccent := currentAccent s;
     searchTerm := searchTerm s; sidebarWidth := v;
     isResizing := isResizing s; mobileMenuOpen := mobileMenuOpen s |}.

Definition setIsResizing (v : bool) (s : AppState) : AppState :=
  {| selectedFile := selectedFile s; viewMode := viewMode s;
     currentTheme := currentTheme s; currentAccent := currentAccent s;
     searchTerm := searchTerm s; sidebarWidth := sidebarWidth s;
     isResizing := v; mobileMenuOpen := mobileMenuOpen s |}.

Definition setMobileMenuOpen (v : bool) (s : AppState) : AppState :=
  {| selectedFile := selectedFile s; viewMode := viewMode s;
     currentTheme := currentTheme s; currentAccent := currentAccent s;
     searchTerm := searchTerm s; sidebarWidth := sidebarWidth s;
     isResizing := isResizing s; mobileMenuOpen := v |}.

(** ** Event handlers *)

(** Sidebar resizing (lines 122-129).  [clientX] is the pointer's
    horizontal position in pixels. *)
Definition startResizing (s : AppState) : AppState := setIsResizing true s.
Definition stopResizing (s : AppState) : AppState := setIsResizing false s.

Definition resize (clientX : Z) (s : AppState) : AppState :=
  if isResizing s then
    let newWidth := clientX in
    if ((200 <? newWidth) && (newWidth <? 600))%Z
    then setSidebarWidth newWidth s
    else s
  else s.

(** The [onSelect] callback handed to [FileTree] (lines 261-265). *)
Definition onSelect (file : FileRecord) (s : AppState) : AppState :=
  setMobileMenuOpen false (setViewMode "explanation" (setSelectedFile (Some file) s)).

(** Everything the user can do to the page. *)
Inductive Event :=
| FileRowClick (file : FileRecord)
| ExplanationTabClick
| CodeTabClick
| AccentButtonClick (acc : Accent)
| ThemeButtonClick (theme : Theme)
| SearchInput (value : list N)
| MenuButtonClick
| CloseButtonClick
| OverlayClick
| HandleMouseDown
| MouseMove (clientX : Z)
| MouseUp.

Definition handle (e : Event) (s : AppState) : AppState :=
  match e with
  | FileRowClick file => onSelect file s
  | ExplanationTabClick => setViewMode "explanation" s
  | CodeTabClick => setViewMode "code" s
  | AccentButtonClick acc => setCurrentAccent (ac_id acc) s
  | ThemeButtonClick theme => setCurrentTheme (th_id theme) s
  | SearchInput value => setSearchTerm value s
  | MenuButtonClick => setMobileMenuOpen (negb (mobileMenuOpen s)) s
  | CloseButtonClick => setMobileMenuOpen false s
  | OverlayClick => setMobileMenuOpen false s
  | HandleMouseDown => startResizing s
  | MouseMove clientX => resize clientX s
  | MouseUp => stopResizing s
  end.

Definition run (es : list Event) (s : AppState) : AppState :=
  fold_left (fun s e => handle e s) es s.

(** ** The filtered catalog (the [useMemo] of lines 141-148) *)

Definition filteredData {LC : LowerCase} (rawData : Catalog) (searchTerm : list N)
  : Catalog :=
  if falsyUnits searchTerm then rawData
  else
    let lowerTerm := toLowerCase searchTerm in
    List.filter (fun group => (0 <? length (files group))%nat)
      (map (fun group =>
              {| folder := folder group;
                 files := List.filter
                            (fun f => includes (toLowerCase (name f)) lowerTerm)
                            (files group) |})
           rawData).

(** ** Theme lookups and the highlighter style (lines 150-158) *)

Definition findTheme (themeId : string) : option Theme :=
  List.find (fun t => String.eqb (th_id t) themeId) THEMES.

Definition findAccent (accentId : string) : option Accent :=
  List.find (fun a => String.eqb (ac_id a) accentId) ACCENTS.

Definition activeThemeObj (s : AppState) : option Theme := findTheme (currentTheme s).
Definition activeAccentObj (s : AppState) : option Accent := findAccent (currentAccent s).

(** [None] stands for the TypeError of reading [.isDark] off [undefined]. *)
Definition getSyntaxStyle (s : AppState) : option SyntaxStyle :=
  if String.eqb (currentTheme s) "dracula" then Some dracula
  else if String.eqb (currentTheme s) "solarized" then Some solarizedlight
  else match activeThemeObj s with
       | Some t => Some (if th_isDark t then vscDarkPlus else ghcolors)
       | None => None
       end.

(** ** [FileTree] and [FolderGroup] (lines 32-86) *)

(** [Array.prototype.sort] with a comparator is a stable sort; with a
    consistent comparator its result is the one of this insertion sort.
    An element goes in front of the first later element that it does not
    exceed, so equal elements keep their order. *)
Fixpoint insertSorted {A} (cmp : A -> A -> Z) (x : A) (l : list A) : list A :=
  match l with
  | [] => [x]
  | y :: l' => if (cmp x y <=? 0)%Z then x :: l else y :: insertSorted cmp x l'
  end.

Definition arraySort {A} (cmp : A -> A -> Z) (l : list A) : list A :=
  fold_right (insertSorted cmp) [] l.

Definition folderLength (g : folderGroup) : Z := Z.of_nat (String.length (folder g)).

Definition compareFolders (a b : folderGroup) : Z :=
  (folderLength a - folderLength b)%Z.

(** [[...data].sort(...)]: the copy is sorted, [data] is left as it is. *)
Definition sortedFolders (data : Catalog) : Catalog := arraySort compareFolders data.

(** One file row of an open folder. *)
Record FileRow := {
  row_key : string;
  row_title : list N;
  row_label : list N;
  row_highlighted : bool;
  row_onClick : Event }.

(** What a [FolderGroup] puts on the page, when it puts anything. *)
Record FolderNode := {
  node_displayName : string;
  node_isOpen : bool;
  node_rows : list FileRow }.

Definition fileRow (selectedPath : option string) (file : FileRecord) : FileRow :=
  {| row_key := path file;
     row_title := name file;
     row_label := name file;
     row_highlighted := bool_decide (selectedPath = Some (path file));
     row_onClick := FileRowClick file |}.

(** [isOpen] is the component's own [useState(true)] cell.  [None] is
    the [return null] of line 51. *)
Definition FolderGroup (isOpen : bool) (selectedPath : option string)
    (g : folderGroup) : option FolderNode :=
  let displayName := if String.eqb (folder g) "." then "Root" else folder g in
  if (length (files g) =? 0)%nat then None
  else Some {| node_displayName := displayName;
               node_isOpen := isOpen;
               node_rows := if isOpen then map (fileRow selectedPath) (files g)
                            else [] |}.

(** [FileTree] makes one [FolderGroup] element per group of the sorted
    data; each element is paired here with what it renders.  [openState]
    gives the [isOpen] cell of the element with a given key. *)
Definition FileTree (openState : string -> bool) (data : Catalog)
    (selectedPath : option string) : list (folderGroup * option FolderNode) :=
  map (fun g => (g, FolderGroup (openState (folder g)) selectedPath g))
      (sortedFolders data).

(** The nodes that reach the page: [null] children render nothing. *)
Definition renderedTree (openState : string -> bool) (data : Catalog)
    (selectedPath : option string) : list FolderNode :=
  omap snd (FileTree openState data selectedPath).

(** ** The content panel (lines 287-395) *)

Record HighlighterProps := {
  hl_language : string;
  hl_style : SyntaxStyle;
  hl_showLineNumbers : bool;
  hl_children : string }.

(** [fenceStyle] is what [getSyntaxStyle()] gives to a fenced code block
    of the markdown, [None] when the call throws. *)
Inductive MainPanel :=
| Placeholder
| ExplanationView (title : list N) (markdown : string)
                  (fenceStyle : option SyntaxStyle)
| CodeView (title : list N) (highlighter : HighlighterProps).

(** [None]: the call of [getSyntaxStyle] in the code view threw. *)
Definition mainPanel (s : AppState) : option MainPanel :=
  match selectedFile s with
  | None => Some Placeholder
  | Some f =>
      if String.eqb (viewMode s) "explanation"
      then Some (ExplanationView (name f) (explanation f) (getSyntaxStyle s))
      else
        style ← getSyntaxStyle s;
        Some (CodeView (name f)
                {| hl_language := "csharp";
                   hl_style := style;
                   hl_showLineNumbers := true;
                   hl_children := code f |})
  end.

(** ** The whole page *)

Record Page := {
  page_accentSwatch : string;
  page_themeLabel : string;
  page_tree : list FolderNode;
  page_main : MainPanel }.

(** The header reads [activeAccentObj.color] and [activeThemeObj.name]
    without a guard: [None] when either object is [undefined]. *)
Definition App {LC : LowerCase} (rawData : Catalog) (openState : string -> bool)
    (s : AppState) : option Page :=
  acc ← activeAccentObj s;
  thm ← activeThemeObj s;
  main ← mainPanel s;
  Some {| page_accentSwatch := ac_color acc;
          page_themeLabel := th_name thm;
          page_tree := renderedTree openState (filteredData rawData (searchTerm s))
                         (path <$> selectedFile s);
          page_main := main |}.

(** The events the page can deliver in state [s]: a file row exists only
    for a file of the filtered catalog, the two tabs only while a file
    is selected, one picker button per entry of [ACCENTS] and [THEMES],
    the scrim only while the mobile menu is open.  The search box, the
    menu and close buttons, the drag handle and the window listeners are
    always there. *)
Definition offered {LC : LowerCase} (rawData : Catalog) (s : AppState) (e : Event)
  : Prop :=
  match e with
  | FileRowClick file =>
      Exists (fun g => In file (files g)) (filteredData rawData (searchTerm s))
  | ExplanationTabClick | CodeTabClick => selectedFile s <> None
  | AccentButtonClick acc => In acc ACCENTS
  | ThemeButtonClick theme => In theme THEMES
  | OverlayClick => mobileMenuOpen s = true
  | SearchInput _ | MenuButtonClick | CloseButtonClick
  | HandleMouseDown | MouseMove _ | MouseUp => True
  end.

(** The states the page can be in. *)
Inductive reachable {LC : LowerCase} (rawData : Catalog) : AppState -> Prop :=
| reachable_init : reachable rawData initialState
| reachable_step s e :
    reachable rawData s -> offered rawData s e -> reachable rawData (handle e s).

#[global] Instance offered_dec {LC : LowerCase} rawData s e :
  Decision (offered rawData s e).
Proof.
  destruct e; simpl; try apply _.
  apply Exists_dec. intros g. apply In_dec. intros x y. apply (decide (x = y)).
Defined.

(** ** The document element and the theme effect (lines 102-119) *)

(** The root element, as far as the effect touches it.  Its [class]
    attribute is held as the list of its tokens, in their order, and
    its [style] attribute as its declarations, property by property;
    [doc_attributes] holds the attributes other than those two. *)
Record Document := {
  doc_attributes : gmap string string;
  doc_classList : list string;
  doc_style : gmap string string }.

(** [setAttribute(k, v)] for a name other than [class] and [style];
    line 104 passes [data-theme]. *)
Definition setAttribute (k v : string) (d : Document) : Document :=
  {| doc_attributes := <[k := v]> (doc_attributes d);
     doc_classList := doc_classList d;
     doc_style := doc_style d |}.

(** [classList.add]: a token already present is not added again. *)
Definition tokenAdd (c : string) (l : list string) : list string :=
  if bool_decide (c ∈ l) then l else (l ++ [c])%list.

(** [classList.remove] *)
Definition tokenRemove (c : string) (l : list string) : list string :=
  List.filter (fun x => negb (String.eqb x c)) l.

(** [style.setProperty]: an empty value removes the property. *)
Definition styleSet (k v : string) (m : gmap string string) : gmap string string :=
  if falsy v then delete k m else <[k := v]> m.

Definition classList_add (c : string) (d : Document) : Document :=
  {| doc_attributes := doc_attributes d;
     doc_classList := tokenAdd c (doc_classList d);
     doc_style := doc_style d |}.

Definition classList_remove (c : string) (d : Document) : Document :=
  {| doc_attributes := doc_attributes d;
     doc_classList := tokenRemove c (doc_classList d);
     doc_style := doc_style d |}.

Definition style_setProperty (k v : string) (d : Document) : Document :=
  {| doc_attributes := doc_attributes d;
     doc_classList := doc_classList d;
     doc_style := styleSet k v (doc_style d) |}.

(** [themeObj?.isDark] in a condition: [undefined] counts as false. *)
Definition optIsDark (themeObj : option Theme) : bool :=
  match themeObj with Some t => th_isDark t | None => false end.

Definition themeEffect (currentTheme currentAccent : string) (d : Document)
  : Document :=
  let d1 := setAttribute "data-theme" currentTheme d in
  let themeObj := findTheme currentTheme in
  let d2 := if optIsDark themeObj then classList_add "dark" d1
            else classList_remove "dark" d1 in
  let accentObj := findAccent currentAccent in
  match accentObj with
  | Some a =>
      style_setProperty "--accent-dim" (ac_dim a)
        (style_setProperty "--accent" (ac_color a) d2)
  | None => d2
  end.

(** ** The [useMemo] on a store of objects

    [filteredData] above works on values.  In the browser the catalog is
    a graph of objects: an array of group objects, each holding a
    reference to an array of file objects.  [map], [filter] and the
    object spread allocate; nothing in lines 141-148 writes to an
    object that exists already.  This second embedding keeps the
    references, so that the fate of the source catalog can be
    stated. *)

Inductive object :=
| ObjFile (f : FileRecord)
| ObjGroup (folderField : string) (filesField : positive)
| ObjArray (elems : list positive).

Abbreviation store := (gmap positive object).

(** Computations that read and extend the store; [None] is a TypeError. *)
Definition Js (A : Type) : Type := store -> option (store * A).

Definition ret {A} (a : A) : Js A := fun h => Some (h, a).

Definition bind {A B} (m : Js A) (k : A -> Js B) : Js B :=
  fun h => match m h with
           | Some (h', a) => k a h'
           | None => None
           end.

Notation "x <~ m ;; k" := (bind m (fun x => k))
  (at level 100, m at next level, right associativity).

Definition readFile (l : positive) : Js FileRecord :=
  fun h => match h !! l with Some (ObjFile f) => Some (h, f) | _ => None end.

Definition readGroup (l : positive) : Js (string * positive) :=
  fun h => match h !! l with
           | Some (ObjGroup fo fi) => Some (h, (fo, fi))
           | _ => None
           end.

Definition readArray (l : positive) : Js (list positive) :=
  fun h => match h !! l with Some (ObjArray es) => Some (h, es) | _ => None end.

(** A new object lives at a reference that the store does not use. *)
Definition new (o : object) : Js positive :=
  fun h => let l := fresh (dom h) in Some (<[l := o]> h, l).

Fixpoint forEachMap {A} (f : positive -> Js A) (es : list positive) : Js (list A) :=
  match es with
  | [] => ret []
  | e :: es' => a <~ f e ;; r <~ forEachMap f es' ;; ret (a :: r)
  end.

Fixpoint forEachFilter (p : positive -> Js bool) (es : list positive)
  : Js (list positive) :=
  match es with
  | [] => ret []
  | e :: es' =>
      b <~ p e ;; r <~ forEachFilter p es' ;; ret (if b then e :: r else r)
  end.

(** [arr.map(f)] and [arr.filter(p)]: the result is a new array. *)
Definition Array_map (arr : positive) (f : positive -> Js positive) : Js positive :=
  es <~ readArray arr ;; r <~ forEachMap f es ;; new (ObjArray r).

Definition Array_filter (arr : positive) (p : positive -> Js bool) : Js positive :=
  es <~ readArray arr ;; r <~ forEachFilter p es ;; new (ObjArray r).

(** [arr.length] *)
Definition Array_length (arr : positive) : Js nat :=
  es <~ readArray arr ;; ret (length es).

(** The three callbacks of lines 144-147. *)
Definition keepFileJs {LC : LowerCase} (lowerTerm : list N) (f : positive) : Js bool :=
  fr <~ readFile f ;;
  ret (includes (toLowerCase (name fr)) lowerTerm).

(** [{...group, files: group.files.filter(...)}]: a new object with the
    old [folder] and a new [files] array. *)
Definition restrictGroupJs {LC : LowerCase} (lowerTerm : list N) (group : positive)
  : Js positive :=
  gf <~ readGroup group ;;
  kept <~ Array_filter (snd gf) (keepFileJs lowerTerm) ;;
  new (ObjGroup (fst gf) kept).

Definition hasFilesJs (group : positive) : Js bool :=
  gf <~ readGroup group ;;
  n <~ Array_length (snd gf) ;;
  ret (0 <? n)%nat.

Definition filteredDataJs {LC : LowerCase} (rawData : positive) (searchTerm : list N)
  : Js positive :=
  if falsyUnits searchTerm then ret rawData
  else
    let lowerTerm := toLowerCase searchTerm in
    mapped <~ Array_map rawData (restrictGroupJs lowerTerm) ;;
    Array_filter mapped hasFilesJs.

(** The catalog that a reference stands for. *)
Definition fileAt (h : store) (l : positive) : option FileRecord :=
  match h !! l with Some (ObjFile f) => Some f | _ => None end.

Definition filesAt (h : store) (l : positive) : option (list FileRecord) :=
  match h !! l with Some (ObjArray es) => mapM (fileAt h) es | _ => None end.

Definition groupAt (h : store) (l : positive) : option folderGroup :=
  match h !! l with
  | Some (ObjGroup fo fi) =>
      match filesAt h fi with
      | Some fs => Some {| folder := fo; files := fs |}
      | None => None
      end
  | _ => None
  end.

Definition catalogAt (h : store) (l : positive) : option Catalog :=
  match h !! l with Some (ObjArray es) => mapM (groupAt h) es | _ => None end.

(** ** What "the name contains the term" can mean *)

(** Two strings are the same up to case. *)
Definition sameIgnoringCase {LC : LowerCase} (a b : list N) : Prop :=
  toLowerCase a = toLowerCase b.

(** The specification's words: [t] occurs in [n] up to case, that is,
    some stretch of [n] is [t] up to case. *)
Definition containsIgnoringCase {LC : LowerCase} (n t : list N) : Prop :=
  exists pre mid post, n = pre ++ mid ++ post /\ sameIgnoringCase mid t.

(** The test of line 146 in words: the lower-cased term occurs in the
    lower-cased name. *)
Definition containsLowered {LC : LowerCase} (n t : list N) : Prop :=
  exists pre post, toLowerCase n = pre ++ toLowerCase t ++ post.

(** All file records of a catalog, folder by folder. *)
Definition allFiles (c : Catalog) : list FileRecord := concat (map files c).

(** What is asked of the view [out] that the search term [t] derives
    from the catalog [raw], for a given meaning [contains] of "the name
    contains the term":
    - its files are the files of [raw] whose name contains [t];
    - each of its groups is a group of [raw] cut down to those files, the
      files in their old order;
    - a file that stays is found under the folder it had;
    - the groups keep their order;
    - under a search term no group of the view is empty, and without one
      the view is the catalog. *)
Definition filteredView (contains : list N -> list N -> Prop)
    (raw : Catalog) (t : list N) (out : Catalog) : Prop :=
  (forall f, In f (allFiles out) <->
             In f (allFiles raw) /\ contains (name f) t) /\
  (forall g', In g' out ->
     exists g, In g raw /\ folder g' = folder g /\
               sublist (files g') (files g) /\
               forall f, In f (files g') <->
                         In f (files g) /\ contains (name f) t) /\
  (forall g f, In g raw -> In f (files g) -> contains (name f) t ->
     exists g', In g' out /\ folder g' = folder g /\ In f (files g')) /\
  sublist (map folder out) (map folder raw) /\
  (t <> [] -> Forall (fun g' => files g' <> []) out) /\
  (t = [] -> out = raw).

(** * Further parts of the page *)

(** ** The picker menus (lines 197-208 and 221-234) *)

Record PickerButton := {
  btn_key : string;
  btn_label : string;
  btn_active : bool;
  btn_onClick : Event }.

Definition accentButtons (s : AppState) : list PickerButton :=
  map (fun acc =>
         {| btn_key := ac_id acc;
            btn_label := ac_name acc;
            btn_active := String.eqb (currentAccent s) (ac_id acc);
            btn_onClick := AccentButtonClick acc |})
      ACCENTS.

Definition themeButtons (s : AppState) : list PickerButton :=
  map (fun theme =>
         {| btn_key := th_id theme;
            btn_label := th_name theme;
            btn_active := String.eqb (currentTheme s) (th_id theme);
            btn_onClick := ThemeButtonClick theme |})
      THEMES.

(** ** The [code] override of the markdown renderer (lines 325-344) *)

(** [\w] of a regular expression without the unicode flag. *)
Definition isWordChar (c : ascii) : bool :=
  let n := nat_of_ascii c in
  (((48 <=? n) && (n <=? 57)) || ((65 <=? n) && (n <=? 90))
   || (n =? 95) || ((97 <=? n) && (n <=? 122)))%nat.

(** The longest run of word characters at the start of [s]: what the
    greedy [\w+] takes when nothing follows it in the pattern. *)
Fixpoint takeWord (s : string) : string :=
  match s with
  | EmptyString => EmptyString
  | String c s' => if isWordChar c then String c (takeWord s') else EmptyString
  end.

Fixpoint dropUnits (n : nat) (s : string) : string :=
  match n, s with
  | O, _ => s
  | S _, EmptyString => EmptyString
  | S n', String _ s' => dropUnits n' s'
  end.

(** [/language-(\w+)/] tried at the start of [s]; the result is the
    group [match[1]]. *)
Definition matchLanguageAt (s : string) : option string :=
  if startsWith s "language-" then
    let w := takeWord (dropUnits 9 s) in
    if falsy w then None else Some w
  else None.

(** [/language-(\w+)/.exec(s)]: the leftmost start at which the pattern
    matches. *)
Fixpoint execLanguage (s : string) : option string :=
  match matchLanguageAt s with
  | Some w => Some w
  | None =>
      match s with
      | EmptyString => None
      | String _ s' => execLanguage s'
      end
  end.

(** [s.replace(/\n$/, '')]: without the multiline flag [$] is the end of
    the input, so one final line feed goes and nothing else. *)
Fixpoint stripTrailingNewline (s : string) : string :=
  match s with
  | EmptyString => EmptyString
  | String c s' =>
      if Ascii.eqb c "010"%char && falsy s' then EmptyString
      else String c (stripTrailingNewline s')
  end.

Inductive CodeElement :=
| HighlightedBlock (highlighter : HighlighterProps)
| InlineCode (className : string) (children : string).

(** [`${className}`]: [undefined] prints as the word. *)
Definition templateString (className : option string) : string :=
  match className with Some c => c | None => "undefined" end.

(** The [code] component.  [className] is [None] for [undefined];
    the props that the spread passes on are left out.  [None]: the call
    of [getSyntaxStyle] threw. *)
Definition codeOverride (s : AppState) (inline : bool) (className : option string)
    (children : string) : option CodeElement :=
  let m := execLanguage (match className with Some c => c | None => "" end) in
  match negb inline, m with
  | true, Some language =>
      style ← getSyntaxStyle s;
      Some (HighlightedBlock
              {| hl_language := language;
                 hl_style := style;
                 hl_showLineNumbers := false;
                 hl_children := stripTrailingNewline children |})
  | _, _ =>
      Some (InlineCode
              (templateString className +:+
               " bg-accent-dim px-1.5 py-0.5 rounded text-sm text-accent font-mono border border-transparent")
              children)
  end.

(** ** The window listeners (lines 131-138)

    [resize] and [stopResizing] are made anew in every render; the
    effect registers the pair of the render it runs in and hands back
    a cleanup that removes that pair.  It runs after the first render
    and after every render in which [isResizing] differs from the value
    it last ran with, the old cleanup first. *)

(** [resize] as made in a render that saw [seen] in [isResizing]. *)
Definition resizeClosure (seen : bool) (clientX : Z) (s : AppState) : AppState :=
  if seen then
    let newWidth := clientX in
    if ((200 <? newWidth) && (newWidth <? 600))%Z
    then setSidebarWidth newWidth s
    else s
  else s.

(** A function value: the render that made it tells it from the others. *)
Inductive Callback :=
| ResizeOf (render : nat) (seen : bool)
| StopResizingOf (render : nat).

#[global] Instance Callback_eq_dec : EqDecision Callback.
Proof. solve_decision. Defined.

(** [addEventListener] does nothing for a pair that is registered. *)
Definition addEventListener (type : string) (cb : Callback)
    (ls : list (string * Callback)) : list (string * Callback) :=
  if bool_decide ((type, cb) ∈ ls) then ls else (ls ++ [(type, cb)])%list.

Definition removeEventListener (type : string) (cb : Callback)
    (ls : list (string * Callback)) : list (string * Callback) :=
  List.filter (fun l => negb (bool_decide (l = (type, cb)))) ls.

Definition listenerEffect (render : nat) (seen : bool)
    (ls : list (string * Callback)) : list (string * Callback) :=
  addEventListener "mouseup" (StopResizingOf render)
    (addEventListener "mousemove" (ResizeOf render seen) ls).

Definition listenerCleanup (render : nat) (seen : bool)
    (ls : list (string * Callback)) : list (string * Callback) :=
  removeEventListener "mouseup" (StopResizingOf render)
    (removeEventListener "mousemove" (ResizeOf render seen) ls).

(** The mounted component: its state, the number of the last render,
    the listeners on [window], and the render and dependency value of
    the last run of the effect. *)
Record Mounted := {
  m_state : AppState;
  m_render : nat;
  m_listeners : list (string * Callback);
  m_effectRender : nat;
  m_effectDeps : bool }.

Definition mount : Mounted :=
  {| m_state := initialState;
     m_render := 0;
     m_listeners := listenerEffect 0 (isResizing initialState) [];
     m_effectRender := 0;
     m_effectDeps := isResizing initialState |}.

(** A render with the new state, and the effect when its dependency
    changed. *)
Definition commit (s' : AppState) (m : Mounted) : Mounted :=
  let n := S (m_render m) in
  if Bool.eqb (isResizing s') (m_effectDeps m) then
    {| m_state := s'; m_render := n; m_listeners := m_listeners m;
       m_effectRender := m_effectRender m; m_effectDeps := m_effectDeps m |}
  else
    {| m_state := s'; m_render := n;
       m_listeners :=
         listenerEffect n (isResizing s')
           (listenerCleanup (m_effectRender m) (m_effectDeps m) (m_listeners m));
       m_effectRender := n; m_effectDeps := isResizing s' |}.

Definition callListener (cb : Callback) (clientX : Z) (s : AppState) : AppState :=
  match cb with
  | ResizeOf _ seen => resizeClosure seen clientX s
  | StopResizingOf _ => stopResizing s
  end.

(** A window event calls the listeners of its type in their order. *)
Definition dispatch (type : string) (clientX : Z) (m : Mounted) : AppState :=
  fold_left (fun s l => if String.eqb (fst l) type
                        then callListener (snd l) clientX s else s)
            (m_listeners m) (m_state m).

(** Pointer moves and releases reach the state through the listeners,
    everything else through the handlers of the JSX. *)
Definition deliver (e : Event) (m : Mounted) : Mounted :=
  match e with
  | MouseMove clientX => commit (dispatch "mousemove" clientX m) m
  | MouseUp => commit (dispatch "mouseup" 0 m) m
  | _ => commit (handle e (m_state m)) m
  end.

(** ** Words used in the statements below *)

(** A pointer position that [resize] takes. *)
Definition insideLimits (x : Z) : bool := ((200 <? x) && (x <? 600))%Z.

Definition isPointerEvent (e : Event) : bool :=
  match e with
  | HandleMouseDown | MouseMove _ | MouseUp => true
  | _ => false
  end.

(** * Properties *)

(** ** Sidebar resizing *)

Section Resizing.

(** The width a handler leaves behind is the old one or a pointer
    position strictly between the two limits. *)
Lemma handle_width e s :
  sidebarWidth (handle e s) = sidebarWidth s \/
  (200 < sidebarWidth (handle e s) < 600)%Z.
Proof.
  destruct e; simpl; auto.
  unfold resize. destruct (isResizing s); auto.
  destruct (200 <? clientX)%Z eqn:Hlo; simpl; auto.
  destruct (clientX <? 600)%Z eqn:Hhi; simpl; auto.
  right. lia.
Qed.

Lemma run_snoc es e s : run (es ++ [e]) s = handle e (run es s).
Proof. unfold run. now rewrite fold_left_app. Qed.

(** No event sequence takes the width to a limit or beyond it. *)
Lemma run_width_strict es s :
  (200 < sidebarWidth s < 600)%Z ->
  (200 < sidebarWidth (run es s) < 600)%Z.
Proof.
  intros Hs. induction es as [|e es IH] using rev_ind; [exact Hs|].
  rewrite run_snoc.
  destruct (handle_width e (run es s)) as [Heq | Hin]; [rewrite Heq|]; assumption.
Qed.

(** A pointer position at or beyond a limit is ignored: the width is
    not moved to the limit. *)
Lemma resize_outside_ignored x s :
  (x <= 200 \/ 600 <= x)%Z -> resize x s = s.
Proof.
  intros Hx. unfold resize. destruct (isResizing s); [|reflexivity].
  destruct (200 <? x)%Z eqn:Hlo; destruct (x <? 600)%Z eqn:Hhi; simpl;
    try reflexivity; lia.
Qed.

Lemma resize_inside_taken x s :
  isResizing s = true -> (200 < x < 600)%Z ->
  sidebarWidth (resize x s) = x.
Proof.
  intros Hr Hx. unfold resize. rewrite Hr.
  destruct (200 <? x)%Z eqn:Hlo; destruct (x <? 600)%Z eqn:Hhi; simpl;
    try reflexivity; lia.
Qed.

End Resizing.

(** C2.  Whatever events arrive after start-up, pointer moves to any
    position included, the sidebar width lies in [200, 600]. *)
Theorem sidebarWidth_in_range (es : list Event) :
  (200 <= sidebarWidth (run es initialState) <= 600)%Z.
Proof.
  assert (200 < sidebarWidth (run es initialState) < 600)%Z; [|lia].
  apply run_width_strict. simpl. lia.
Qed.

(** ** Selection and view mode *)

(** C3.  Clicking a file row leaves the view mode at 'explanation',
    whatever it was, and makes the clicked record the selected file. *)
Theorem select_file_resets_viewMode (file : FileRecord) (s : AppState) :
  viewMode (handle (FileRowClick file) s) = "explanation" /\
  selectedFile (handle (FileRowClick file) s) = Some file.
Proof. split; reflexivity. Qed.

(** C6.  A click on either tab writes the clicked mode into [viewMode]
    and leaves every other state cell, [selectedFile] first of all, as
    it was. *)
Theorem tab_click_changes_viewMode_only (s : AppState) :
  handle ExplanationTabClick s =
    {| selectedFile := selectedFile s; viewMode := "explanation";
       currentTheme := currentTheme s; currentAccent := currentAccent s;
       searchTerm := searchTerm s; sidebarWidth := sidebarWidth s;
       isResizing := isResizing s; mobileMenuOpen := mobileMenuOpen s |} /\
  handle CodeTabClick s =
    {| selectedFile := selectedFile s; viewMode := "code";
       currentTheme := currentTheme s; currentAccent := currentAccent s;
       searchTerm := searchTerm s; sidebarWidth := sidebarWidth s;
       isResizing := isResizing s; mobileMenuOpen := mobileMenuOpen s |} /\
  selectedFile (handle ExplanationTabClick s) = selectedFile s /\
  selectedFile (handle CodeTabClick s) = selectedFile s.
Proof. repeat split. Qed.

(** ** Themes *)

Lemma findTheme_id themeId t : findTheme themeId = Some t -> th_id t = themeId.
Proof.
  unfold findTheme. intros H. apply find_some in H as [_ H].
  now apply String.eqb_eq.
Qed.

Lemma findAccent_id accentId a : findAccent accentId = Some a -> ac_id a = accentId.
Proof.
  unfold findAccent. intros H. apply find_some in H as [_ H].
  now apply String.eqb_eq.
Qed.

(** The ids of [THEMES] are distinct, so [find] returns the entry itself. *)
Lemma findTheme_declared t : In t THEMES -> findTheme (th_id t) = Some t.
Proof.
  simpl. intros H. repeat (destruct H as [<- | H]; [reflexivity|]). destruct H.
Qed.

Lemma findAccent_declared a : In a ACCENTS -> findAccent (ac_id a) = Some a.
Proof.
  simpl. intros H. repeat (destruct H as [<- | H]; [reflexivity|]). destruct H.
Qed.

(** C4.  The highlighter style depends on [currentTheme] alone;
    'dracula' gives the dracula table, 'solarized' the solarized one,
    and any other declared theme the dark default table when its
    [isDark] flag is set, the light default table when it is not. *)
Theorem getSyntaxStyle_by_theme :
  (forall s1 s2, currentTheme s1 = currentTheme s2 ->
                 getSyntaxStyle s1 = getSyntaxStyle s2) /\
  (forall s, currentTheme s = "dracula" -> getSyntaxStyle s = Some dracula) /\
  (forall s, currentTheme s = "solarized" ->
             getSyntaxStyle s = Some solarizedlight) /\
  (forall s t, In t THEMES -> currentTheme s = th_id t ->
               th_id t <> "dracula" -> th_id t <> "solarized" ->
               getSyntaxStyle s =
               Some (if th_isDark t then vscDarkPlus else ghcolors)).
Proof.
  repeat split.
  - intros s1 s2 H. unfold getSyntaxStyle, activeThemeObj. now rewrite H.
  - intros s H. unfold getSyntaxStyle. now rewrite H.
  - intros s H. unfold getSyntaxStyle. now rewrite H.
  - intros s t Hin Hcur Hd Hs. unfold getSyntaxStyle, activeThemeObj.
    rewrite Hcur.
    destruct (String.eqb_spec (th_id t) "dracula"); [contradiction|].
    destruct (String.eqb_spec (th_id t) "solarized"); [contradiction|].
    now rewrite (findTheme_declared t Hin).
Qed.

Lemma getSyntaxStyle_by_theme_witness :
  let light := {| th_id := "light"; th_name := "Light"; th_isDark := false |} in
  let drac := {| th_id := "dracula"; th_name := "Dracula"; th_isDark := true |} in
  getSyntaxStyle (run [ThemeButtonClick drac; ThemeButtonClick light] initialState)
  = Some ghcolors.
Proof.
  intros light drac.
  apply (proj2 (proj2 (proj2 getSyntaxStyle_by_theme)) _ light).
  - simpl. auto.
  - reflexivity.
  - discriminate.
  - discriminate.
Defined.

(** The two pickers keep the ids inside the tables. *)
Definition idsDeclared (s : AppState) : Prop :=
  In (currentTheme s) (map th_id THEMES) /\
  In (currentAccent s) (map ac_id ACCENTS).

Lemma idsDeclared_init : idsDeclared initialState.
Proof. split; simpl; auto 10. Qed.

Lemma idsDeclared_handle {LC : LowerCase} rawData s e :
  offered rawData s e -> idsDeclared s -> idsDeclared (handle e s).
Proof.
  intros Hoff [Ht Ha].
  destruct e; cbn [handle offered] in *; try (split; assumption).
  - split; [assumption|]. cbn [setCurrentAccent currentAccent]. now apply in_map.
  - split; [|assumption]. cbn [setCurrentTheme currentTheme]. now apply in_map.
  - unfold resize. destruct (isResizing s); [|split; assumption].
    destruct ((200 <? clientX)%Z && (clientX <? 600)%Z); split; assumption.
Qed.

Lemma reachable_idsDeclared {LC : LowerCase}
    rawData s : reachable rawData s -> idsDeclared s.
Proof.
  induction 1 as [|s e _ IH Hoff].
  - apply idsDeclared_init.
  - now apply (idsDeclared_handle rawData).
Qed.

Lemma declared_theme_found themeId :
  In themeId (map th_id THEMES) ->
  exists t, findTheme themeId = Some t /\ In t THEMES /\ th_id t = themeId.
Proof.
  intros H. apply in_map_iff in H as (t & <- & Hin).
  exists t. auto using findTheme_declared.
Qed.

Lemma declared_accent_found accentId :
  In accentId (map ac_id ACCENTS) ->
  exists a, findAccent accentId = Some a /\ In a ACCENTS /\ ac_id a = accentId.
Proof.
  intros H. apply in_map_iff in H as (a & <- & Hin).
  exists a. auto using findAccent_declared.
Qed.

Lemma getSyntaxStyle_defined s :
  is_Some (activeThemeObj s) -> is_Some (getSyntaxStyle s).
Proof.
  intros [t Ht]. unfold getSyntaxStyle. rewrite Ht.
  destruct (currentTheme s =? "dracula"); [eauto|].
  destruct (currentTheme s =? "solarized"); eauto.
Qed.

Lemma mainPanel_defined s : is_Some (activeThemeObj s) -> is_Some (mainPanel s).
Proof.
  intros Ht. unfold mainPanel. destruct (selectedFile s) as [f|]; [|eauto].
  destruct (viewMode s =? "explanation"); [eauto|].
  destruct (getSyntaxStyle_defined s Ht) as [style ->]. simpl. eauto.
Qed.

(** C10.  In every state the page can reach, [currentTheme] and
    [currentAccent] are ids of the two tables, both [find] calls return
    an entry, and neither [getSyntaxStyle] nor the render of [App]
    reads a field off [undefined]. *)
Theorem reachable_lookups_succeed {LC : LowerCase} (rawData : Catalog) (s : AppState) :
  reachable rawData s ->
  In (currentTheme s) ["light"; "github"; "vscode"; "dracula"; "solarized"] /\
  In (currentAccent s) ["blue"; "purple"; "emerald"; "orange"; "rose"] /\
  (exists t, activeThemeObj s = Some t /\ th_id t = currentTheme s) /\
  (exists a, activeAccentObj s = Some a /\ ac_id a = currentAccent s) /\
  is_Some (getSyntaxStyle s) /\
  (forall openState, is_Some (App rawData openState s)).
Proof.
  intros Hr. destruct (reachable_idsDeclared _ _ Hr) as [Ht Ha].
  destruct (declared_theme_found _ Ht) as (t & Hft & _ & Hid).
  destruct (declared_accent_found _ Ha) as (a & Hfa & _ & Hia).
  assert (Hsome : is_Some (activeThemeObj s)) by (unfold activeThemeObj; eauto).
  repeat split.
  - exact Ht.
  - exact Ha.
  - exists t. auto.
  - exists a. auto.
  - now apply getSyntaxStyle_defined.
  - intros openState. unfold App, activeAccentObj, activeThemeObj.
    rewrite Hfa, Hft. simpl.
    destruct (mainPanel_defined s Hsome) as [m ->]. simpl. eauto.
Qed.

Lemma reachable_lookups_succeed_witness :
  let s := handle (ThemeButtonClick
                     {| th_id := "dracula"; th_name := "Dracula"; th_isDark := true |})
                  initialState in
  reachable [] s /\ is_Some (getSyntaxStyle s).
Proof.
  intros s.
  assert (Hr : reachable [] s).
  { apply reachable_step; [apply reachable_init|]. simpl. auto 10. }
  split; [exact Hr|].
  apply (reachable_lookups_succeed [] s Hr).
Defined.

(** ** The code view *)

(** C8.  With a file selected and the view mode at 'code', the panel is
    the highlighter fed with the record's [code] field, line numbers
    on, and the language set to 'csharp', whatever the record is. *)
Theorem code_view_language_fixed (s : AppState) (f : FileRecord) :
  selectedFile s = Some f ->
  viewMode s = "code" ->
  is_Some (activeThemeObj s) ->
  exists style,
    getSyntaxStyle s = Some style /\
    mainPanel s =
      Some (CodeView (name f)
              {| hl_language := "csharp"; hl_style := style;
                 hl_showLineNumbers := true; hl_children := code f |}).
Proof.
  intros Hsel Hmode Ht.
  destruct (getSyntaxStyle_defined s Ht) as [style Hst].
  exists style. split; [exact Hst|].
  unfold mainPanel. rewrite Hsel, Hmode, Hst. reflexivity.
Qed.

Lemma code_view_language_fixed_witness :
  let f := {| path := "web/index.html"; name := u "index.html";
              explanation := "# Page"; code := "<html></html>" |} in
  let s := handle CodeTabClick (handle (FileRowClick f) initialState) in
  exists style,
    getSyntaxStyle s = Some style /\
    mainPanel s =
      Some (CodeView (u "index.html")
              {| hl_language := "csharp"; hl_style := style;
                 hl_showLineNumbers := true; hl_children := "<html></html>" |}).
Proof.
  intros f s.
  apply (code_view_language_fixed s f); [reflexivity | reflexivity |].
  unfold s; simpl. eauto.
Defined.

(** ** The theme effect *)

Section ThemeEffect.

Lemma lookup_styleSet k v m i :
  styleSet k v m !! i =
  if decide (k = i) then (if falsy v then None else Some v) else m !! i.
Proof.
  unfold styleSet. destruct (falsy v).
  - rewrite lookup_delete. reflexivity.
  - rewrite lookup_insert. reflexivity.
Qed.

(** Writing the same two properties a second time changes nothing. *)
Lemma styleSet_twice k1 v1 k2 v2 m :
  styleSet k2 v2 (styleSet k1 v1 (styleSet k2 v2 (styleSet k1 v1 m))) =
  styleSet k2 v2 (styleSet k1 v1 m).
Proof.
  apply map_eq. intros i. rewrite !lookup_styleSet.
  destruct (decide (k2 = i)); [reflexivity|].
  destruct (decide (k1 = i)); reflexivity.
Qed.

Lemma tokenAdd_twice c l : tokenAdd c (tokenAdd c l) = tokenAdd c l.
Proof.
  unfold tokenAdd. destruct (bool_decide (c ∈ l)) eqn:Hin.
  - now rewrite Hin.
  - rewrite bool_decide_eq_true_2; [reflexivity|].
    apply elem_of_app. right. apply list_elem_of_singleton. reflexivity.
Qed.

Lemma filter_twice {A} (p : A -> bool) l :
  List.filter p (List.filter p l) = List.filter p l.
Proof.
  induction l as [|x l IH]; simpl; [reflexivity|].
  destruct (p x) eqn:Hp; simpl; [rewrite Hp|]; congruence.
Qed.

(** The three parts of the document after the effect. *)
Lemma themeEffect_attributes t a d :
  doc_attributes (themeEffect t a d) = <["data-theme" := t]> (doc_attributes d).
Proof.
  unfold themeEffect.
  destruct (findAccent a), (optIsDark (findTheme t)); reflexivity.
Qed.

Lemma themeEffect_classList t a d :
  doc_classList (themeEffect t a d) =
  if optIsDark (findTheme t) then tokenAdd "dark" (doc_classList d)
  else tokenRemove "dark" (doc_classList d).
Proof.
  unfold themeEffect.
  destruct (findAccent a), (optIsDark (findTheme t)); reflexivity.
Qed.

Lemma themeEffect_style t a d :
  doc_style (themeEffect t a d) =
  match findAccent a with
  | Some acc =>
      styleSet "--accent-dim" (ac_dim acc)
        (styleSet "--accent" (ac_color acc) (doc_style d))
  | None => doc_style d
  end.
Proof.
  unfold themeEffect.
  destruct (findAccent a), (optIsDark (findTheme t)); reflexivity.
Qed.

Lemma Document_ext d1 d2 :
  doc_attributes d1 = doc_attributes d2 ->
  doc_classList d1 = doc_classList d2 ->
  doc_style d1 = doc_style d2 ->
  d1 = d2.
Proof. destruct d1, d2; simpl; congruence. Qed.

End ThemeEffect.

(** C9.  Running the theme effect a second time with the same theme id
    and accent id leaves the document element as the first run left it:
    same attributes, same class list, same style properties. *)
Theorem themeEffect_idempotent (themeId accentId : string) (d : Document) :
  themeEffect themeId accentId (themeEffect themeId accentId d) =
  themeEffect themeId accentId d.
Proof.
  apply Document_ext.
  - rewrite !themeEffect_attributes. apply insert_insert_eq.
  - rewrite themeEffect_classList.
    rewrite (themeEffect_classList themeId accentId d).
    destruct (optIsDark (findTheme themeId)).
    + apply tokenAdd_twice.
    + apply filter_twice.
  - rewrite themeEffect_style.
    rewrite (themeEffect_style themeId accentId d).
    destruct (findAccent accentId); [|reflexivity].
    apply styleSet_twice.
Qed.

(** ** The order of the folder groups *)

Section SortByKey.

Context {A : Type} (key : A -> Z).

Let cmp (a b : A) : Z := (key a - key b)%Z.
Let le (a b : A) : Prop := (key a <= key b)%Z.

Lemma insertSorted_perm x l : Permutation (insertSorted cmp x l) (x :: l).
Proof.
  induction l as [|y l IH]; simpl; [reflexivity|].
  destruct (cmp x y <=? 0)%Z; [reflexivity|].
  rewrite IH. apply perm_swap.
Qed.

Lemma arraySort_perm l : Permutation (arraySort cmp l) l.
Proof.
  induction l as [|x l IH]; simpl; [reflexivity|].
  rewrite insertSorted_perm. now apply perm_skip.
Qed.

Lemma insertSorted_sorted x l :
  StronglySorted le l -> StronglySorted le (insertSorted cmp x l).
Proof.
  induction 1 as [|y l Hs IH Hall]; simpl.
  - repeat constructor.
  - destruct (cmp x y <=? 0)%Z eqn:Hc.
    + apply Z.leb_le in Hc. constructor; [now constructor|].
      constructor; [unfold le, cmp in *; lia|].
      eapply List.Forall_impl; [|exact Hall]. intros z Hz.
      unfold le, cmp in *. lia.
    + apply Z.leb_gt in Hc. constructor; [exact IH|].
      eapply Permutation_Forall; [symmetry; apply insertSorted_perm|].
      constructor; [unfold le, cmp in *; lia | exact Hall].
Qed.

Lemma arraySort_sorted l : StronglySorted le (arraySort cmp l).
Proof.
  induction l as [|x l IH]; simpl; [constructor|].
  now apply insertSorted_sorted.
Qed.

(** Stability: the elements with one key value keep their order. *)
Lemma insertSorted_keep k x l :
  List.filter (fun a => (key a =? k)%Z) (insertSorted cmp x l) =
  List.filter (fun a => (key a =? k)%Z) (x :: l).
Proof.
  induction l as [|y l IH]; [reflexivity|].
  cbn [insertSorted]. destruct (cmp x y <=? 0)%Z eqn:Hc; [reflexivity|].
  apply Z.leb_gt in Hc. unfold cmp in Hc.
  cbn [List.filter] in *. rewrite IH.
  destruct (key y =? k)%Z eqn:Hy, (key x =? k)%Z eqn:Hx; try reflexivity.
  apply Z.eqb_eq in Hy, Hx. lia.
Qed.

Lemma arraySort_stable k l :
  List.filter (fun a => (key a =? k)%Z) (arraySort cmp l) =
  List.filter (fun a => (key a =? k)%Z) l.
Proof.
  induction l as [|x l IH]; [reflexivity|].
  cbn [arraySort fold_right]. rewrite insertSorted_keep.
  cbn [List.filter]. fold (arraySort cmp l). now rewrite IH.
Qed.

(** A sorted list is fixed by the order inside each key class, so every
    stable sort returns what [arraySort] returns. *)
Lemma sorted_stable_unique l1 l2 :
  StronglySorted le l1 -> StronglySorted le l2 ->
  (forall k, List.filter (fun a => (key a =? k)%Z) l1 =
             List.filter (fun a => (key a =? k)%Z) l2) ->
  l1 = l2.
Proof.
  intros H1. revert l2.
  induction H1 as [|x1 l1 _ IH Hx1]; intros l2 H2 Hf.
  - destruct l2 as [|x2 l2]; [reflexivity|].
    specialize (Hf (key x2)). cbn [List.filter] in Hf.
    rewrite Z.eqb_refl in Hf. discriminate.
  - destruct H2 as [|x2 l2 H2 Hx2].
    + specialize (Hf (key x1)). cbn [List.filter] in Hf.
      rewrite Z.eqb_refl in Hf. discriminate.
    + assert (Hle12 : (key x1 <= key x2)%Z).
      { assert (Hin : In x2 (x1 :: l1)).
        { eapply proj1, filter_In. rewrite (Hf (key x2)).
          cbn [List.filter]. rewrite Z.eqb_refl. now left. }
        destruct Hin as [->|Hin]; [lia|].
        exact (proj1 (List.Forall_forall _ _) Hx1 _ Hin). }
      assert (Hle21 : (key x2 <= key x1)%Z).
      { assert (Hin : In x1 (x2 :: l2)).
        { eapply proj1, filter_In. rewrite <- (Hf (key x1)).
          cbn [List.filter]. rewrite Z.eqb_refl. now left. }
        destruct Hin as [->|Hin]; [lia|].
        exact (proj1 (List.Forall_forall _ _) Hx2 _ Hin). }
      assert (Heq : x1 = x2).
      { specialize (Hf (key x1)). cbn [List.filter] in Hf.
        rewrite Z.eqb_refl in Hf.
        replace (key x2 =? key x1)%Z with true in Hf by (symmetry; apply Z.eqb_eq; lia).
        congruence. }
      subst x2. f_equal. apply IH; [exact H2|].
      intros k. specialize (Hf k). cbn [List.filter] in Hf.
      destruct (key x1 =? k)%Z; congruence.
Qed.

Lemma arraySort_unique l l' :
  StronglySorted le l' ->
  (forall k, List.filter (fun a => (key a =? k)%Z) l' =
             List.filter (fun a => (key a =? k)%Z) l) ->
  l' = arraySort cmp l.
Proof.
  intros Hs Hf. apply sorted_stable_unique; [exact Hs | apply arraySort_sorted |].
  intros k. now rewrite Hf, arraySort_stable.
Qed.

(** An element that no other one undercuts goes to the front. *)
Lemma insertSorted_front x l :
  Forall (fun y => (key x <= key y)%Z) l -> insertSorted cmp x l = x :: l.
Proof.
  destruct 1 as [|y l Hy _]; simpl; [reflexivity|].
  destruct (cmp x y <=? 0)%Z eqn:Hc; [reflexivity|].
  apply Z.leb_gt in Hc. unfold cmp in Hc. lia.
Qed.

Lemma insertSorted_behind x r l :
  (key r < key x)%Z ->
  insertSorted cmp x (r :: l) = r :: insertSorted cmp x l.
Proof.
  intros H. simpl. destruct (cmp x r <=? 0)%Z eqn:Hc; [|reflexivity].
  apply Z.leb_le in Hc. unfold cmp in Hc. lia.
Qed.

Lemma arraySort_front pre r post :
  Forall (fun x => (key r < key x)%Z) pre ->
  Forall (fun y => (key r <= key y)%Z) post ->
  arraySort cmp (pre ++ r :: post) = r :: arraySort cmp (pre ++ post).
Proof.
  intros Hpre Hpost. unfold arraySort. rewrite !fold_right_app.
  cbn [fold_right]. fold (arraySort cmp post).
  rewrite insertSorted_front.
  2:{ eapply Permutation_Forall; [symmetry; apply arraySort_perm|exact Hpost]. }
  induction Hpre as [|x pre Hx _ IH]; [reflexivity|].
  cbn [fold_right]. rewrite IH. now apply insertSorted_behind.
Qed.

End SortByKey.

Lemma StronglySorted_mono {A} (R S : A -> A -> Prop) l :
  (forall a b, R a b -> S a b) -> StronglySorted R l -> StronglySorted S l.
Proof.
  intros HRS. induction 1 as [|x l _ IH Hall]; constructor; [exact IH|].
  eapply List.Forall_impl; [|exact Hall]. intros b. apply HRS.
Qed.

Lemma FileTree_groups openState data selectedPath :
  map fst (FileTree openState data selectedPath) = sortedFolders data.
Proof.
  unfold FileTree. rewrite map_map. simpl. apply map_id.
Qed.

(** C7 does not hold as written: a one-letter folder that comes before
    the root group in the catalog is rendered before it. *)
Lemma root_group_not_first :
  let f := {| path := "a/x.cs"; name := u "x.cs"; explanation := ""; code := "" |} in
  let g := {| path := "y.cs"; name := u "y.cs"; explanation := ""; code := "" |} in
  let data := [ {| folder := "a"; files := [f] |};
                {| folder := "."; files := [g] |} ] in
  map folder (sortedFolders data) = ["a"; "."] /\
  map node_displayName (renderedTree (fun _ => true) data None) = ["a"; "Root"].
Proof. split; reflexivity. Qed.

(** C7 (amended).  [FileTree] makes its elements from the groups of the
    catalog in ascending folder-name length, groups of equal length in
    catalog order.  The root group comes first when every group before
    it in the catalog has a folder name of two characters or more and
    every group after it one of one character or more. *)
Theorem FileTree_order (openState : string -> bool) (data : Catalog)
    (selectedPath : option string) :
  let shown := map fst (FileTree openState data selectedPath) in
  Permutation shown data /\
  StronglySorted
    (fun a b => (String.length (folder a) <= String.length (folder b))%nat) shown /\
  (forall n, List.filter (fun g => (String.length (folder g) =? n)%nat) shown =
             List.filter (fun g => (String.length (folder g) =? n)%nat) data) /\
  (forall pre root post,
      data = (pre ++ root :: post)%list ->
      folder root = "." ->
      Forall (fun g => (2 <= String.length (folder g))%nat) pre ->
      Forall (fun g => (1 <= String.length (folder g))%nat) post ->
      shown = root :: sortedFolders (pre ++ post)%list).
Proof.
  cbv zeta. rewrite FileTree_groups. unfold sortedFolders, compareFolders.
  repeat split.
  - apply arraySort_perm.
  - eapply StronglySorted_mono; [|apply (arraySort_sorted folderLength)].
    unfold folderLength. intros a b H. simpl in H. lia.
  - intros n.
    pose proof (arraySort_stable folderLength (Z.of_nat n) data) as H.
    erewrite (List.filter_ext _ (fun a => (folderLength a =? Z.of_nat n)%Z)).
    + rewrite H. apply List.filter_ext. intros a. unfold folderLength.
      destruct (Nat.eqb_spec (String.length (folder a)) n);
        destruct (Z.eqb_spec (Z.of_nat (String.length (folder a))) (Z.of_nat n));
        try reflexivity; lia.
    + intros a. unfold folderLength.
      destruct (Nat.eqb_spec (String.length (folder a)) n);
        destruct (Z.eqb_spec (Z.of_nat (String.length (folder a))) (Z.of_nat n));
        try reflexivity; lia.
  - intros pre root post -> Hroot Hpre Hpost.
    apply arraySort_front.
    + eapply List.Forall_impl; [|exact Hpre]. unfold folderLength.
      rewrite Hroot. simpl. intros a Ha. lia.
    + eapply List.Forall_impl; [|exact Hpost]. unfold folderLength.
      rewrite Hroot. simpl. intros a Ha. lia.
Qed.

Lemma FileTree_order_witness :
  let net := {| folder := "src/net"; files := [] |} in
  let root := {| folder := "."; files := [] |} in
  let src := {| folder := "src"; files := [] |} in
  map fst (FileTree (fun _ => true) [net; root; src] None) = [root; src; net].
Proof.
  intros net root src.
  apply (proj2 (proj2 (proj2
           (FileTree_order (fun _ => true) [net; root; src] None)))
         [net] root [src]).
  - reflexivity.
  - reflexivity.
  - repeat constructor.
  - repeat constructor.
Defined.

(** ** Empty folder groups *)

Lemma FolderGroup_empty isOpen selectedPath g :
  files g = [] -> FolderGroup isOpen selectedPath g = None.
Proof. intros H. unfold FolderGroup. now rewrite H. Qed.

Lemma FolderGroup_shown isOpen selectedPath g n :
  FolderGroup isOpen selectedPath g = Some n -> files g <> [].
Proof.
  intros H Hnil. now rewrite (FolderGroup_empty _ _ _ Hnil) in H.
Qed.

(** C5.  Whatever the search term, the empty one included, a group
    without files puts nothing on the page: its [FolderGroup] element
    renders [null], and every node of the rendered tree comes from a
    group of the filtered catalog that has a file. *)
Theorem empty_group_not_rendered {LC : LowerCase} (rawData : Catalog) (term : list N)
    (openState : string -> bool) (selectedPath : option string) :
  let data := filteredData rawData term in
  (forall g out, In (g, out) (FileTree openState data selectedPath) ->
                 files g = [] -> out = None) /\
  (forall n, In n (renderedTree openState data selectedPath) ->
             exists g, In g data /\ files g <> [] /\
                       FolderGroup (openState (folder g)) selectedPath g = Some n).
Proof.
  cbv zeta. split.
  - intros g out Hin Hnil. unfold FileTree in Hin.
    apply in_map_iff in Hin as (g' & Heq & _).
    injection Heq as <- <-. now apply FolderGroup_empty.
  - intros n Hin. unfold renderedTree in Hin.
    apply list_elem_of_In, list_elem_of_omap in Hin as ([g out] & Hin & Hout).
    simpl in Hout. subst out. apply list_elem_of_In in Hin.
    unfold FileTree in Hin. apply in_map_iff in Hin as (g' & Heq & Hg).
    injection Heq as -> Hn. exists g. repeat split.
    + eapply Permutation_in; [apply (arraySort_perm folderLength)|exact Hg].
    + now apply FolderGroup_shown in Hn.
    + exact Hn.
Qed.

Lemma empty_group_not_rendered_witness :
  let docs := {| folder := "docs"; files := [] |} in
  let readme := {| path := "README.md"; name := u "README.md";
                   explanation := ""; code := "" |} in
  let data := [ {| folder := "."; files := [readme] |}; docs ] in
  In (docs, FolderGroup true None docs)
     (FileTree (fun _ => true) (filteredData data []) None) /\
  FolderGroup true None docs = None.
Proof.
  intros docs readme data.
  assert (Hin : In (docs, FolderGroup true None docs)
                   (FileTree (fun _ => true) (filteredData data []) None)).
  { right. left. reflexivity. }
  split; [exact Hin|].
  exact (proj1 (empty_group_not_rendered data [] (fun _ => true) None)
               docs (FolderGroup true None docs) Hin eq_refl).
Defined.

(** ** The filtered catalog *)

Section Strings.

Context {LC : LowerCase}.

Lemma append_cons c a b : String c a +:+ b = String c (a +:+ b).
Proof. reflexivity. Qed.

Lemma append_nil b : "" +:+ b = b.
Proof. reflexivity. Qed.

Lemma startsWith_spec s p :
  startsWith s p = true <-> exists post, s = p +:+ post.
Proof.
  revert s. induction p as [|c p IH]; intros s.
  - simpl. split; [intros _; now exists s | reflexivity].
  - destruct s as [|d s]; simpl.
    + split; [discriminate | intros [post H]; discriminate].
    + destruct (Ascii.eqb_spec c d) as [->|Hne].
      * rewrite IH. split; intros [post H]; exists post;
          rewrite append_cons in *; congruence.
      * split; [discriminate|].
        intros [post H]. rewrite append_cons in H. congruence.
Qed.

Lemma startsWithUnits_spec (s p : list N) :
  startsWithUnits s p = true <-> exists post, s = p ++ post.
Proof.
  revert s. induction p as [|c p IH]; intros s.
  - cbn. split; [intros _; now exists s | reflexivity].
  - destruct s as [|d s]; cbn [startsWithUnits].
    + split; [discriminate | intros [post Hs]; discriminate].
    + destruct (N.eqb_spec c d) as [->|Hne].
      * rewrite IH. split; intros [post Hs]; exists post; cbn in *; congruence.
      * split; [discriminate|]. intros [post Hs]. cbn in Hs. congruence.
Qed.

Lemma includes_spec (s p : list N) :
  includes s p = true <-> exists pre post, s = pre ++ p ++ post.
Proof.
  induction s as [|d s IH].
  - cbn [includes]. rewrite orb_false_r, startsWithUnits_spec. split.
    + intros [post Hs]. now exists [], post.
    + intros (pre & post & Hs). destruct pre; [now exists post | discriminate].
  - cbn [includes]. rewrite orb_true_iff, startsWithUnits_spec, IH. split.
    + intros [[post Hs] | (pre & post & Hs)].
      * now exists [], post.
      * exists (d :: pre), post. cbn. congruence.
    + intros (pre & post & Hs). destruct pre as [|c pre].
      * left. now exists post.
      * right. exists pre, post. cbn in Hs. congruence.
Qed.

(** The test of line 146 says that the lower-cased term occurs in the
    lower-cased name. *)
Lemma includes_lower_iff n t :
  includes (toLowerCase n) (toLowerCase t) = true <-> containsLowered n t.
Proof. apply includes_spec. Qed.

Lemma containsLowered_empty n : containsLowered n [].
Proof. exists [], (toLowerCase n). now rewrite toLowerCase_nil. Qed.

Lemma containsIgnoringCase_empty n : containsIgnoringCase n [].
Proof. now exists [], [], n. Qed.

End Strings.

(** Where lower-casing works unit by unit, as it does on Basic Latin and
    Latin-1, the test of line 146 is containment up to case. *)
Section UnitWise.

Context {LC : LowerCase}.
Variable f : N -> N.
Hypothesis toLowerCase_map : forall s, toLowerCase s = map f s.

Lemma map_cut (s a b : list N) :
  map f s = a ++ b ->
  exists a' b', s = a' ++ b' /\ map f a' = a /\ map f b' = b.
Proof.
  revert s. induction a as [|c a IH]; intros s Hs.
  - now exists [], s.
  - destruct s as [|d s]; [discriminate|]. cbn in Hs.
    injection Hs as Hc Hs. destruct (IH s Hs) as (a' & b' & -> & Ha & Hb).
    exists (d :: a'), b'. cbn. repeat split; congruence.
Qed.

Lemma containsLowered_unitwise n t :
  containsLowered n t <-> containsIgnoringCase n t.
Proof.
  unfold containsLowered, containsIgnoringCase, sameIgnoringCase.
  setoid_rewrite toLowerCase_map. split.
  - intros (pre & post & Hn).
    apply map_cut in Hn as (pre' & rest & -> & Hpre & Hrest).
    apply map_cut in Hrest as (mid & post' & -> & Hmid & Hpost).
    now exists pre', mid, post'.
  - intros (pre & mid & post & -> & Hmid).
    exists (map f pre), (map f post). now rewrite !map_app, Hmid.
Qed.

End UnitWise.

Section FilteredData.

Context {LC : LowerCase}.

Lemma in_allFiles f c : In f (allFiles c) <-> exists g, In g c /\ In f (files g).
Proof.
  unfold allFiles. rewrite in_concat. split.
  - intros (l & Hl & Hf). apply in_map_iff in Hl as (g & <- & Hg). eauto.
  - intros (g & Hg & Hf). exists (files g). split; [now apply in_map | exact Hf].
Qed.

Lemma filter_sublist {A} (p : A -> bool) l : sublist (List.filter p l) l.
Proof.
  induction l as [|x l IH]; simpl; [constructor|].
  destruct (p x); now constructor.
Qed.

Lemma nonempty_length {A} (l : list A) : (0 <? length l)%nat = true <-> l <> [].
Proof. destruct l; simpl; split; (congruence || discriminate || reflexivity). Qed.

(** What lines 144-147 compute, one step at a time. *)
Lemma filteredData_term c t raw :
  filteredData raw (c :: t) =
  List.filter (fun group => (0 <? length (files group))%nat)
    (map (fun group =>
            {| folder := folder group;
               files := List.filter
                 (fun f => includes (toLowerCase (name f))
                                    (toLowerCase (c :: t)))
                 (files group) |}) raw).
Proof. reflexivity. Qed.

Lemma in_filteredData_term c t raw g' :
  In g' (filteredData raw (c :: t)) <->
  files g' <> [] /\
  exists g, In g raw /\ folder g' = folder g /\
    files g' = List.filter
                 (fun f => includes (toLowerCase (name f))
                                    (toLowerCase (c :: t)))
                 (files g).
Proof.
  rewrite filteredData_term, filter_In, nonempty_length, in_map_iff. split.
  - intros [(g & <- & Hg) Hne]. split; [exact Hne|]. now exists g.
  - intros [Hne (g & Hg & Hfo & Hfi)]. split; [|exact Hne].
    exists g. split; [|exact Hg]. destruct g'; simpl in *. congruence.
Qed.

Lemma filteredData_folders c t raw :
  sublist (map folder (filteredData raw (c :: t))) (map folder raw).
Proof.
  rewrite filteredData_term.
  induction raw as [|g raw IH]; simpl; [constructor|].
  match goal with |- context [if ?b then _ else _] => destruct b end;
    simpl; now constructor.
Qed.

(** The value-level view holds the files that pass the test of line 146. *)
Lemma filteredData_view raw t :
  filteredView containsLowered raw t (filteredData raw t).
Proof.
  assert (G1 : forall g', In g' (filteredData raw t) ->
    exists g, In g raw /\ folder g' = folder g /\
              sublist (files g') (files g) /\
              forall f, In f (files g') <->
                        In f (files g) /\ containsLowered (name f) t).
  { destruct t as [|c t].
    - intros g' Hg'. exists g'.
      split; [exact Hg'|]. split; [reflexivity|]. split; [reflexivity|].
      intros f. split; [|tauto].
      intros Hf. split; [exact Hf | apply containsLowered_empty].
    - intros g' Hg'. apply in_filteredData_term in Hg' as [_ (g & Hg & Hfo & Hfi)].
      exists g. split; [exact Hg|]. split; [exact Hfo|]. rewrite Hfi. split.
      + apply filter_sublist.
      + intros f. now rewrite filter_In, includes_lower_iff. }
  assert (G2 : forall g f, In g raw -> In f (files g) ->
    containsLowered (name f) t ->
    exists g', In g' (filteredData raw t) /\ folder g' = folder g /\
               In f (files g')).
  { destruct t as [|c t].
    - intros g f Hg Hf _. now exists g.
    - intros g f Hg Hf Hc.
      set (keep := fun f => includes (toLowerCase (name f))
                                     (toLowerCase (c :: t))).
      assert (Hin : In f (List.filter keep (files g))).
      { apply filter_In. split; [exact Hf|]. now apply includes_lower_iff. }
      exists {| folder := folder g; files := List.filter keep (files g) |}.
      split; [|split; [reflexivity | exact Hin]].
      apply in_filteredData_term. simpl. split.
      + intros Hnil. now rewrite Hnil in Hin.
      + now exists g. }
  unfold filteredView. split; [|split; [exact G1|split; [exact G2|]]].
  - intros f. rewrite !in_allFiles. split.
    + intros (g' & Hg' & Hf).
      destruct (G1 g' Hg') as (g & Hg & _ & _ & Hiff).
      destruct (proj1 (Hiff f) Hf) as [Hf' Hc]. eauto.
    + intros [(g & Hg & Hf) Hc].
      destruct (G2 g f Hg Hf Hc) as (g' & Hg' & _ & Hf'). eauto.
  - split; [|split].
    + destruct t as [|c t]; [reflexivity | apply filteredData_folders].
    + intros Hne. destruct t as [|c t]; [contradiction|].
      apply List.Forall_forall. intros g' Hg'.
      now apply in_filteredData_term in Hg' as [Hnil _].
    + intros ->. reflexivity.
Qed.

End FilteredData.

(** ** The filtered catalog in the store *)

Section Store.

Implicit Types (h : store) (l : positive).

Lemma filesAt_Some h l fs :
  filesAt h l = Some fs <->
  exists es, h !! l = Some (ObjArray es) /\
             Forall2 (fun e f => fileAt h e = Some f) es fs.
Proof.
  unfold filesAt. split.
  - destruct (h !! l) as [[| |es]|]; try discriminate.
    intros H. exists es. split; [reflexivity | now apply mapM_Some].
  - intros (es & -> & H). now apply mapM_Some.
Qed.

Lemma groupAt_Some h l G :
  groupAt h l = Some G <->
  exists fi, h !! l = Some (ObjGroup (folder G) fi) /\
             filesAt h fi = Some (files G).
Proof.
  unfold groupAt. split.
  - destruct (h !! l) as [[|fo fi|]|]; try discriminate.
    destruct (filesAt h fi) as [fs|] eqn:E; [|discriminate].
    intros [= <-]. now exists fi.
  - intros (fi & E1 & E2). rewrite E1, E2. now destruct G.
Qed.

Lemma catalogAt_Some h l c :
  catalogAt h l = Some c <->
  exists es, h !! l = Some (ObjArray es) /\
             Forall2 (fun e g => groupAt h e = Some g) es c.
Proof.
  unfold catalogAt. split.
  - destruct (h !! l) as [[| |es]|]; try discriminate.
    intros H. exists es. split; [reflexivity | now apply mapM_Some].
  - intros (es & -> & H). now apply mapM_Some.
Qed.

(** A larger store stands for the same values at the old references. *)
Lemma fileAt_mono h h' l f :
  h ⊆ h' -> fileAt h l = Some f -> fileAt h' l = Some f.
Proof.
  intros Hsub. unfold fileAt.
  destruct (h !! l) as [o|] eqn:E; [|discriminate].
  now rewrite (lookup_weaken _ _ _ _ E Hsub).
Qed.

Lemma filesAt_mono h h' l fs :
  h ⊆ h' -> filesAt h l = Some fs -> filesAt h' l = Some fs.
Proof.
  intros Hsub. rewrite !filesAt_Some. intros (es & E & H).
  exists es. split; [now apply (lookup_weaken _ _ _ _ E)|].
  eapply Forall2_impl; [exact H|]. intros e f. now apply fileAt_mono.
Qed.

Lemma groupAt_mono h h' l G :
  h ⊆ h' -> groupAt h l = Some G -> groupAt h' l = Some G.
Proof.
  intros Hsub. rewrite !groupAt_Some. intros (fi & E & H).
  exists fi. split; [now apply (lookup_weaken _ _ _ _ E)|].
  now apply (filesAt_mono h).
Qed.

Lemma catalogAt_mono h h' l c :
  h ⊆ h' -> catalogAt h l = Some c -> catalogAt h' l = Some c.
Proof.
  intros Hsub. rewrite !catalogAt_Some. intros (es & E & H).
  exists es. split; [now apply (lookup_weaken _ _ _ _ E)|].
  eapply Forall2_impl; [exact H|]. intros e g. now apply groupAt_mono.
Qed.

(** Allocation adds one object and touches no other. *)
Lemma new_spec o h :
  exists l, new o h = Some (<[l := o]> h, l) /\ h !! l = None /\ h ⊆ <[l := o]> h.
Proof.
  exists (fresh (dom h)).
  assert (h !! fresh (dom h) = None) by apply not_elem_of_dom, is_fresh.
  split; [reflexivity|]. split; [assumption|]. now apply insert_subseteq.
Qed.

(** A [filter] whose callback only reads: the store stays as it is
    and the kept references stand for the kept values. *)
Lemma forEachFilter_pure {X} (R : positive -> X -> Prop) (q : X -> bool)
    (p : positive -> Js bool) h es xs :
  (forall e x, R e x -> p e h = Some (h, q x)) ->
  Forall2 R es xs ->
  exists es', forEachFilter p es h = Some (h, es') /\
              Forall2 R es' (List.filter q xs).
Proof.
  intros Hp. induction 1 as [|e x es xs HR _ (es' & IHrun & IHrel)].
  - exists []. split; [reflexivity | constructor].
  - cbn [forEachFilter List.filter]. unfold bind at 1.
    rewrite (Hp e x HR). unfold bind at 1. rewrite IHrun.
    unfold ret. destruct (q x).
    + exists (e :: es'). split; [reflexivity | now constructor].
    + exists es'. split; [reflexivity | exact IHrel].
Qed.

Lemma Array_filter_pure {X} (R : positive -> X -> Prop) (q : X -> bool)
    (p : positive -> Js bool) h arr es xs :
  h !! arr = Some (ObjArray es) ->
  (forall e x, R e x -> p e h = Some (h, q x)) ->
  Forall2 R es xs ->
  exists k es', Array_filter arr p h = Some (<[k := ObjArray es']> h, k) /\
                h !! k = None /\
                Forall2 R es' (List.filter q xs).
Proof.
  intros Harr Hp HR.
  destruct (forEachFilter_pure R q p h es xs Hp HR) as (es' & Hrun & Hrel).
  destruct (new_spec (ObjArray es') h) as (k & Hnew & Hfresh & _).
  exists k, es'. split; [|split; assumption].
  unfold Array_filter, bind, readArray. now rewrite Harr, Hrun.
Qed.

End Store.

Section StoreFilter.

Context {LC : LowerCase}.

Implicit Types (h : store) (l : positive).

Variable lowerTerm : list N.

Let keep (f : FileRecord) : bool := includes (toLowerCase (name f)) lowerTerm.
Let restrict (G : folderGroup) : folderGroup :=
  {| folder := folder G; files := List.filter keep (files G) |}.

Lemma keepFileJs_reads h e f :
  fileAt h e = Some f -> keepFileJs lowerTerm e h = Some (h, keep f).
Proof.
  unfold fileAt, keepFileJs, bind, readFile.
  destruct (h !! e) as [[f'| |]|]; try discriminate. now intros [= ->].
Qed.

Lemma hasFilesJs_reads h e G :
  groupAt h e = Some G ->
  hasFilesJs e h = Some (h, (0 <? length (files G))%nat).
Proof.
  rewrite groupAt_Some. intros (fi & E & Hfi).
  apply filesAt_Some in Hfi as (es & Ees & Hes).
  unfold hasFilesJs, bind, readGroup, Array_length, bind, readArray.
  rewrite E. cbn [snd]. rewrite Ees. unfold ret.
  now rewrite (Forall2_length _ _ _ Hes).
Qed.

(** The spread of line 145 builds the cut-down group next to the old
    one. *)
Lemma restrictGroupJs_spec h g G :
  groupAt h g = Some G ->
  exists h' g', restrictGroupJs lowerTerm g h = Some (h', g') /\
                h ⊆ h' /\ groupAt h' g' = Some (restrict G).
Proof.
  rewrite groupAt_Some. intros (fi & E & Hfi).
  apply filesAt_Some in Hfi as (es & Ees & Hes).
  destruct (Array_filter_pure (fun e f => fileAt h e = Some f) keep
              (keepFileJs lowerTerm) h fi es (files G) Ees)
    as (k & es' & Hrun & Hk & Hrel); [apply keepFileJs_reads | exact Hes |].
  set (h1 := <[k := ObjArray es']> h) in *.
  assert (Hsub1 : h ⊆ h1) by now apply insert_subseteq.
  destruct (new_spec (ObjGroup (folder G) k) h1) as (g' & Hnew & Hg' & Hsub2).
  exists (<[g' := ObjGroup (folder G) k]> h1), g'. split; [|split].
  - unfold restrictGroupJs, bind, readGroup. rewrite E. cbn [fst snd].
    now rewrite Hrun.
  - now transitivity h1.
  - apply groupAt_Some. exists k. cbn [folder files restrict]. split.
    + apply lookup_insert_eq.
    + apply (filesAt_mono h1); [exact Hsub2|].
      apply filesAt_Some. exists es'. split; [apply lookup_insert_eq|].
      eapply Forall2_impl; [exact Hrel|]. intros e f. now apply fileAt_mono.
Qed.

Lemma forEachMap_restrict gs : forall h Gs,
  Forall2 (fun g G => groupAt h g = Some G) gs Gs ->
  exists h' gs', forEachMap (restrictGroupJs lowerTerm) gs h = Some (h', gs') /\
                 h ⊆ h' /\
                 Forall2 (fun g G => groupAt h' g = Some G) gs' (map restrict Gs).
Proof.
  induction gs as [|g gs IH]; intros h Gs H.
  - apply Forall2_nil_inv_l in H as ->. exists h, [].
    split; [reflexivity|]. split; [reflexivity | constructor].
  - apply Forall2_cons_inv_l in H as (G & Gs' & HG & Hrest & ->).
    destruct (restrictGroupJs_spec h g G HG) as (h1 & g' & Hrun & Hsub1 & Hg').
    destruct (IH h1 Gs') as (h2 & gs' & Hruns & Hsub2 & Hgs').
    { eapply Forall2_impl; [exact Hrest|]. intros e x. now apply groupAt_mono. }
    exists h2, (g' :: gs'). split; [|split].
    + cbn [forEachMap]. unfold bind at 1. rewrite Hrun.
      unfold bind at 1. now rewrite Hruns.
    + now transitivity h1.
    + cbn [map]. constructor; [|exact Hgs']. now apply (groupAt_mono h1).
Qed.

End StoreFilter.

(** The store-level [useMemo] computes the value-level one and leaves
    every object of the old store as it was. *)
Lemma filteredDataJs_refines {LC : LowerCase}
    (h : store) (r : positive) (raw : Catalog) (t : list N) :
  catalogAt h r = Some raw ->
  exists h' r', filteredDataJs r t h = Some (h', r') /\
                h ⊆ h' /\
                catalogAt h' r' = Some (filteredData raw t).
Proof.
  intros Hraw. destruct t as [|c t].
  - exists h, r. split; [reflexivity|]. split; [reflexivity | exact Hraw].
  - rewrite filteredData_term. set (lt := toLowerCase (c :: t)).
    apply catalogAt_Some in Hraw as (es & Er & Hes).
    destruct (forEachMap_restrict lt es h raw Hes) as (h1 & gs' & Hmap & Hsub1 & Hgs').
    destruct (new_spec (ObjArray gs') h1) as (m & Hnew & Hm & Hsub2).
    set (h2 := <[m := ObjArray gs']> h1) in *.
    destruct (Array_filter_pure (fun e G => groupAt h2 e = Some G)
                (fun G => (0 <? length (files G))%nat) hasFilesJs h2 m gs'
                (map (fun G => {| folder := folder G;
                                  files := List.filter
                                    (fun f => includes (toLowerCase (name f)) lt)
                                    (files G) |}) raw))
      as (k & es' & Hrun & Hk & Hrel).
    { apply lookup_insert_eq. }
    { apply hasFilesJs_reads. }
    { eapply Forall2_impl; [exact Hgs'|]. intros e G. now apply groupAt_mono. }
    assert (Hsub3 : h2 ⊆ <[k := ObjArray es']> h2) by now apply insert_subseteq.
    exists (<[k := ObjArray es']> h2), k. split; [|split].
    + unfold filteredDataJs. cbn [falsyUnits]. fold lt.
      unfold bind at 1. unfold Array_map, bind at 1, readArray. rewrite Er.
      unfold bind at 1. rewrite Hmap. rewrite Hnew. exact Hrun.
    + transitivity h1; [exact Hsub1|]. now transitivity h2.
    + apply catalogAt_Some. exists es'. split; [apply lookup_insert_eq|].
      eapply Forall2_impl; [exact Hrel|]. intros e G. now apply groupAt_mono.
Qed.

(** C1 does not hold as written.  A capital sigma at the end of a word
    is lower-cased to the final sigma U+03C2, a capital sigma on its own
    to U+03C3: the file named with a capital alpha and a capital sigma
    is not in the view of the term capital sigma, though its name
    contains the term as it stands. *)
Lemma final_sigma_file_dropped :
  let f := {| path := "as.cs"; name := [0x391; 0x3A3]%N;
              explanation := ""; code := "" |} in
  let raw := [ {| folder := "."; files := [f] |} ] in
  let t := [0x3A3%N] in
  name f = [0x391%N] ++ t ++ [] /\
  containsIgnoringCase (name f) t /\
  toLowerCase (name f) = [0x3B1; 0x3C2]%N /\
  toLowerCase t = [0x3C3%N] /\
  filteredData raw t = [] /\
  ~ filteredView containsIgnoringCase raw t (filteredData raw t).
Proof.
  intros f raw t.
  assert (Hc : containsIgnoringCase (name f) t).
  { exists [0x391%N], t, []. split; reflexivity. }
  split; [reflexivity|]. split; [exact Hc|]. split; [reflexivity|].
  split; [reflexivity|]. split; [reflexivity|].
  intros (Hfiles & _).
  assert (Hin : In f (allFiles (filteredData raw t))).
  { apply Hfiles. split; [now left | exact Hc]. }
  destruct Hin.
Qed.

(** The other way round: U+0130 is lower-cased to an i and a combining
    dot, so the file named U+0130 is in the view of the term i, though
    no stretch of its name is i up to case. *)
Example dotted_capital_file_kept :
  let f := {| path := "i.cs"; name := [0x130%N]; explanation := ""; code := "" |} in
  let raw := [ {| folder := "."; files := [f] |} ] in
  filteredData raw (u "i") = raw /\
  ~ containsIgnoringCase (name f) (u "i").
Proof.
  intros f raw. split; [reflexivity|].
  intros (pre & mid & post & Hn & Hmid). unfold sameIgnoringCase in Hmid.
  destruct pre as [|c pre]; cbn in Hn.
  - destruct mid as [|d mid]; [discriminate Hmid|].
    injection Hn as <- Hn. destruct mid; [discriminate Hmid | discriminate Hn].
  - injection Hn as _ Hn. destruct pre; [|discriminate Hn].
    destruct mid; [discriminate Hmid | discriminate Hn].
Qed.

(** C1 (amended).  For every search term, the [useMemo] returns a view
    whose files are the files of the catalog whose lower-cased name
    contains the lower-cased term, folder by folder and in the old
    order, without the groups that the term empties; the objects of the
    catalog stay as they were, so the catalog reference still stands
    for the same catalog. *)
Theorem filteredData_correct {LC : LowerCase} (h : store) (r : positive)
    (raw : Catalog) (t : list N) :
  catalogAt h r = Some raw ->
  exists h' r' out,
    filteredDataJs r t h = Some (h', r') /\
    catalogAt h' r' = Some out /\
    out = filteredData raw t /\
    filteredView containsLowered raw t out /\
    h ⊆ h' /\
    catalogAt h' r = Some raw.
Proof.
  intros Hraw.
  destruct (filteredDataJs_refines h r raw t Hraw) as (h' & r' & Hrun & Hsub & Hout).
  exists h', r', (filteredData raw t).
  split; [exact Hrun|]. split; [exact Hout|]. split; [reflexivity|].
  split; [apply filteredData_view|]. split; [exact Hsub|].
  now apply (catalogAt_mono h).
Qed.

Lemma filteredData_correct_witness :
  let readme := {| path := "README.md"; name := u "ReadMe.MD";
                   explanation := "# Read me"; code := "text" |} in
  let main := {| path := "src/Main.cs"; name := u "Main.cs";
                 explanation := "# Main"; code := "class Main{}" |} in
  let raw := [ {| folder := "."; files := [readme] |};
               {| folder := "src"; files := [main] |} ] in
  let h : store :=
    <[7%positive := ObjArray [3; 6]%positive]>
      (<[6%positive := ObjGroup "src" 5]>
         (<[5%positive := ObjArray [4%positive]]>
            (<[4%positive := ObjFile main]>
               (<[3%positive := ObjGroup "." 2]>
                  (<[2%positive := ObjArray [1%positive]]>
                     (<[1%positive := ObjFile readme]> ∅)))))) in
  catalogAt h 7 = Some raw /\
  exists h' r' out,
    filteredDataJs 7 (u "readME") h = Some (h', r') /\
    catalogAt h' r' = Some out /\
    out = [ {| folder := "."; files := [readme] |} ] /\
    filteredView containsLowered raw (u "readME") out /\
    h ⊆ h' /\
    catalogAt h' 7 = Some raw.
Proof.
  intros readme main raw h.
  assert (Hraw : catalogAt h 7 = Some raw) by (vm_compute; reflexivity).
  split; [exact Hraw|].
  exact (filteredData_correct h 7 raw (u "readME") Hraw).
Defined.

(** ** Scenarios *)

Section Scenarios.

Let a_cs := {| path := "a.cs"; name := u "a.cs"; explanation := "# A";
               code := "class A{}" |}.
Let catalog := [ {| folder := "."; files := [a_cs] |} ].

Example lower_case_units :
  sampleLower (u "ReadMe.MD") = u "readme.md" /\
  sampleLower [201%N] = [233%N] /\
  sampleLower [215%N] = [215%N] /\
  sampleLower [0x39F; 0x394; 0x39F; 0x3A3; 0x2E; 0x3A3]%N
    = [0x3BF; 0x3B4; 0x3BF; 0x3C3; 0x2E; 0x3C2]%N.
Proof. repeat split. Qed.

(** No search term: one root group with the one file. *)
Example tree_without_search :
  renderedTree (fun _ => true) (filteredData catalog []) None =
  [ {| node_displayName := "Root"; node_isOpen := true;
       node_rows := [ {| row_key := "a.cs"; row_title := u "a.cs";
                         row_label := u "a.cs"; row_highlighted := false;
                         row_onClick := FileRowClick a_cs |} ] |} ].
Proof. reflexivity. Qed.

(** A click on the row shows the explanation, one on the code tab the
    code with line numbers. *)
Example click_then_code_tab :
  mainPanel (handle (FileRowClick a_cs) initialState) =
    Some (ExplanationView (u "a.cs") "# A" (Some vscDarkPlus)) /\
  mainPanel (run [FileRowClick a_cs; CodeTabClick] initialState) =
    Some (CodeView (u "a.cs")
            {| hl_language := "csharp"; hl_style := vscDarkPlus;
               hl_showLineNumbers := true; hl_children := "class A{}" |}).
Proof. split; reflexivity. Qed.

(** A term that matches nothing: no group is left. *)
Example tree_without_match :
  filteredData catalog (u "zzz") = [] /\
  renderedTree (fun _ => true) (filteredData catalog (u "zzz")) None = [].
Proof. split; reflexivity. Qed.

(** Without a search term a group that has no files stays in the
    view (line 142 returns the catalog itself); it is [FolderGroup]
    that keeps it off the page. *)
Example empty_group_without_search :
  let data := {| folder := "docs"; files := [] |} :: catalog in
  filteredData data [] = data /\
  map node_displayName (renderedTree (fun _ => true) (filteredData data []) None) =
    ["Root"].
Proof. split; reflexivity. Qed.

(** A drag beyond a limit leaves the width where it was; the limits
    themselves are not taken either. *)
Example drag_beyond_limits :
  sidebarWidth (run [HandleMouseDown; MouseMove 1000] initialState) = 280%Z /\
  sidebarWidth (run [HandleMouseDown; MouseMove 599; MouseMove 600] initialState)
    = 599%Z /\
  sidebarWidth (run [HandleMouseDown; MouseMove 200] initialState) = 280%Z /\
  sidebarWidth (run [HandleMouseDown; MouseUp; MouseMove 300] initialState)
    = 280%Z.
Proof. repeat split. Qed.

End Scenarios.


(** * Further properties *)

(** ** The drag gesture *)

Lemma run_cons e es s : run (e :: es) s = run es (handle e s).
Proof. reflexivity. Qed.

Lemma resize_keeps_flag x s : isResizing (resize x s) = isResizing s.
Proof.
  unfold resize. destruct (isResizing s) eqn:E; [|exact E].
  destruct ((200 <? x)%Z && (x <? 600)%Z); exact E.
Qed.

(** X1.  The two limits are exclusive: after any events the width is
    strictly between 200 and 600. *)
Theorem sidebarWidth_never_at_limit (es : list Event) :
  (200 < sidebarWidth (run es initialState) < 600)%Z.
Proof. apply run_width_strict. simpl. lia. Qed.

(** X2.  Outside a drag the width does not move: from a state that is
    not resizing, events without a press on the handle leave the width
    and the flag as they are. *)
Theorem width_fixed_outside_drag (es : list Event) (s : AppState) :
  isResizing s = false ->
  ~ In HandleMouseDown es ->
  sidebarWidth (run es s) = sidebarWidth s /\ isResizing (run es s) = false.
Proof.
  revert s. induction es as [|e es IH]; intros s Hidle Hno; [now split|].
  rewrite run_cons.
  assert (He : e <> HandleMouseDown) by (intros ->; apply Hno; now left).
  assert (Hrest : ~ In HandleMouseDown es) by (intros H; apply Hno; now right).
  assert (Hstep : sidebarWidth (handle e s) = sidebarWidth s /\
                  isResizing (handle e s) = false).
  { destruct e; simpl; try (split; [reflexivity | assumption]);
      try (split; reflexivity).
    - contradiction.
    - unfold resize. rewrite Hidle. now split. }
  destruct Hstep as [Hw Hf]. destruct (IH _ Hf Hrest) as [Hw' Hf'].
  split; [congruence | exact Hf'].
Qed.

Lemma width_fixed_outside_drag_witness :
  sidebarWidth (run [MouseMove 400; SearchInput (u "a"); MouseMove 250] initialState)
  = 280%Z.
Proof.
  apply (width_fixed_outside_drag
           [MouseMove 400; SearchInput (u "a"); MouseMove 250] initialState).
  - reflexivity.
  - simpl. intros [H|[H|[H|[]]]]; discriminate.
Defined.

(** X3.  During a drag the width follows the pointer: after a run of
    pointer moves it is the last position strictly inside the limits,
    and the old width when no position was inside. *)
Theorem drag_follows_pointer (xs : list Z) (s : AppState) :
  isResizing s = true ->
  sidebarWidth (run (map MouseMove xs) s) =
  List.last (List.filter insideLimits xs) (sidebarWidth s).
Proof.
  intros Hdrag. induction xs as [|x xs IH] using rev_ind; [reflexivity|].
  rewrite map_app, List.filter_app. cbn [map List.filter]. rewrite run_snoc.
  assert (Hflag : isResizing (run (map MouseMove xs) s) = true).
  { clear IH. induction xs as [|y ys IHy] using rev_ind; [exact Hdrag|].
    rewrite map_app. cbn [map]. rewrite run_snoc. cbn [handle].
    now rewrite resize_keeps_flag. }
  cbn [handle]. unfold resize. rewrite Hflag. unfold insideLimits.
  destruct ((200 <? x)%Z && (x <? 600)%Z).
  - cbn [setSidebarWidth sidebarWidth]. now rewrite List.last_last.
  - now rewrite app_nil_r.
Qed.

Lemma drag_follows_pointer_witness :
  sidebarWidth (run (map MouseMove [150; 320; 900; 600]%Z)
                    (handle HandleMouseDown initialState)) = 320%Z.
Proof.
  apply (drag_follows_pointer [150; 320; 900; 600]%Z
           (handle HandleMouseDown initialState)).
  reflexivity.
Defined.

(** X4.  The pointer events of the drag touch the layout only: the
    selected file, the view mode, the theme, the accent, the search
    term and the mobile menu are as before. *)
Theorem pointer_events_keep_content (es : list Event) (s : AppState) :
  forallb isPointerEvent es = true ->
  selectedFile (run es s) = selectedFile s /\
  viewMode (run es s) = viewMode s /\
  currentTheme (run es s) = currentTheme s /\
  currentAccent (run es s) = currentAccent s /\
  searchTerm (run es s) = searchTerm s /\
  mobileMenuOpen (run es s) = mobileMenuOpen s.
Proof.
  revert s. induction es as [|e es IH]; intros s Hall; [repeat split|].
  cbn [forallb] in Hall. apply andb_true_iff in Hall as [He Hes].
  rewrite run_cons. destruct (IH (handle e s) Hes) as (H1 & H2 & H3 & H4 & H5 & H6).
  rewrite H1, H2, H3, H4, H5, H6.
  destruct e; try discriminate He; cbn [handle].
  - repeat split.
  - unfold resize. destruct (isResizing s); [|repeat split].
    destruct ((200 <? clientX)%Z && (clientX <? 600)%Z); repeat split.
  - repeat split.
Qed.

Lemma pointer_events_keep_content_witness :
  let s := handle (SearchInput (u "net")) initialState in
  searchTerm (run [HandleMouseDown; MouseMove 300; MouseUp] s) = u "net".
Proof.
  intros s.
  apply (pointer_events_keep_content [HandleMouseDown; MouseMove 300; MouseUp] s).
  reflexivity.
Defined.

(** ** The window listeners *)

Lemma resizeClosure_current x s : resizeClosure (isResizing s) x s = resize x s.
Proof. reflexivity. Qed.

Lemma listenerCleanup_own k d :
  listenerCleanup k d
    [("mousemove", ResizeOf k d); ("mouseup", StopResizingOf k)] = [].
Proof.
  unfold listenerCleanup, removeEventListener. cbn [List.filter].
  rewrite (bool_decide_eq_true_2 (_ = _)) by reflexivity. cbn [negb List.filter].
  rewrite (bool_decide_eq_false_2 (_ = _)) by discriminate. cbn [negb List.filter].
  rewrite (bool_decide_eq_true_2 (_ = _)) by reflexivity. reflexivity.
Qed.

Lemma listenerEffect_fresh n d :
  listenerEffect n d [] =
  [("mousemove", ResizeOf n d); ("mouseup", StopResizingOf n)].
Proof.
  unfold listenerEffect, addEventListener.
  rewrite (bool_decide_eq_false_2 (_ ∈ [])) by apply not_elem_of_nil.
  rewrite bool_decide_eq_false_2; [reflexivity|].
  intros H. apply list_elem_of_singleton in H. discriminate.
Qed.

(** A render keeps one pair of listeners, made with the flag of the new
    state. *)
Lemma commit_in_sync s' m :
  m_listeners m =
    [("mousemove", ResizeOf (m_effectRender m) (m_effectDeps m));
     ("mouseup", StopResizingOf (m_effectRender m))] ->
  m_state (commit s' m) = s' /\
  m_effectDeps (commit s' m) = isResizing s' /\
  m_listeners (commit s' m) =
    [("mousemove", ResizeOf (m_effectRender (commit s' m)) (isResizing s'));
     ("mouseup", StopResizingOf (m_effectRender (commit s' m)))].
Proof.
  intros Hls. unfold commit.
  destruct (Bool.eqb (isResizing s') (m_effectDeps m)) eqn:E.
  - apply Bool.eqb_prop in E. cbn. rewrite E. now repeat split.
  - cbn. rewrite Hls, listenerCleanup_own, listenerEffect_fresh. now repeat split.
Qed.

Lemma deliver_in_sync e m :
  m_effectDeps m = isResizing (m_state m) ->
  m_listeners m =
    [("mousemove", ResizeOf (m_effectRender m) (m_effectDeps m));
     ("mouseup", StopResizingOf (m_effectRender m))] ->
  m_state (deliver e m) = handle e (m_state m) /\
  m_effectDeps (deliver e m) = isResizing (m_state (deliver e m)) /\
  m_listeners (deliver e m) =
    [("mousemove", ResizeOf (m_effectRender (deliver e m)) (m_effectDeps (deliver e m)));
     ("mouseup", StopResizingOf (m_effectRender (deliver e m)))].
Proof.
  intros Hdeps Hls.
  assert (Hs : exists s', deliver e m = commit s' m /\ s' = handle e (m_state m)).
  { destruct e; try (eexists; split; reflexivity).
    - eexists. split; [reflexivity|].
      unfold dispatch. rewrite Hls, Hdeps. reflexivity.
    - eexists. split; [reflexivity|].
      unfold dispatch. rewrite Hls. reflexivity. }
  destruct Hs as (s' & -> & ->).
  destruct (commit_in_sync (handle e (m_state m)) m Hls) as (H1 & H2 & H3).
  split; [exact H1|]. split; [now rewrite H1, H2|]. now rewrite H2.
Qed.

(** X5.  The listeners on [window] never go stale and never pile up:
    after any events there is one [mousemove] and one [mouseup]
    listener, the [resize] among them was made with the current value
    of [isResizing], and the state is the one that the handlers applied
    to the current state give. *)
Theorem listeners_in_sync (es : list Event) :
  let m := fold_left (fun m e => deliver e m) es mount in
  m_state m = run es initialState /\
  exists k, m_listeners m =
            [("mousemove", ResizeOf k (isResizing (m_state m)));
             ("mouseup", StopResizingOf k)].
Proof.
  cbv zeta.
  assert (H : let m := fold_left (fun m e => deliver e m) es mount in
              m_state m = run es initialState /\
              m_effectDeps m = isResizing (m_state m) /\
              m_listeners m =
                [("mousemove", ResizeOf (m_effectRender m) (m_effectDeps m));
                 ("mouseup", StopResizingOf (m_effectRender m))]).
  { induction es as [|e es IH] using rev_ind.
    - cbn. repeat split.
    - cbv zeta in *. rewrite fold_left_app, run_snoc. cbn [fold_left].
      destruct IH as (Hst & Hdeps & Hls).
      destruct (deliver_in_sync e _ Hdeps Hls) as (H1 & H2 & H3).
      split; [now rewrite H1, Hst|]. split; [exact H2 | exact H3]. }
  cbv zeta in H. destruct H as (Hst & Hdeps & Hls).
  split; [exact Hst|]. eexists. rewrite Hls, Hdeps. reflexivity.
Qed.

(** ** What the state cells can hold *)

Lemma handle_selectedFile e s :
  selectedFile (handle e s) = selectedFile s \/
  exists f, e = FileRowClick f /\ selectedFile (handle e s) = Some f.
Proof.
  destruct e; cbn [handle]; try (left; reflexivity).
  - right. now exists file.
  - left. unfold resize. destruct (isResizing s); [|reflexivity].
    now destruct ((200 <? clientX)%Z && (clientX <? 600)%Z).
Qed.

Lemma handle_viewMode e s :
  viewMode (handle e s) = viewMode s \/
  viewMode (handle e s) = "explanation" \/ viewMode (handle e s) = "code".
Proof.
  destruct e; cbn [handle]; auto.
  unfold resize. destruct (isResizing s); auto.
  destruct ((200 <? clientX)%Z && (clientX <? 600)%Z); auto.
Qed.

Lemma selection_kept es s :
  selectedFile s <> None -> selectedFile (run es s) <> None.
Proof.
  revert s. induction es as [|e es IH]; intros s Hs; [exact Hs|].
  rewrite run_cons. apply IH.
  destruct (handle_selectedFile e s) as [-> | (f & _ & ->)]; [exact Hs | discriminate].
Qed.

(** X6.  The view mode is one of the two tabs after any events. *)
Theorem viewMode_is_a_tab (es : list Event) :
  viewMode (run es initialState) = "explanation" \/
  viewMode (run es initialState) = "code".
Proof.
  induction es as [|e es IH] using rev_ind; [now left|].
  rewrite run_snoc.
  destruct (handle_viewMode e (run es initialState)) as [-> | H]; assumption.
Qed.

(** X7.  No handler clears the selection: the placeholder is on the
    page exactly as long as no file row has been clicked. *)
Theorem placeholder_until_first_click (es : list Event) :
  mainPanel (run es initialState) = Some Placeholder <->
  forall f, ~ In (FileRowClick f) es.
Proof.
  assert (Hnone : selectedFile (run es initialState) = None <->
                  forall f, ~ In (FileRowClick f) es).
  { induction es as [|e es IH] using rev_ind.
    - split; [intros _ f [] | reflexivity].
    - rewrite run_snoc. split.
      + intros Hsel f Hin. apply in_app_or in Hin as [Hin | [-> | []]].
        * destruct (handle_selectedFile e (run es initialState))
            as [Heq | (f' & _ & Heq)]; rewrite Heq in Hsel; [|discriminate].
          now apply (proj1 IH Hsel f).
        * discriminate.
      + intros Hno.
        assert (Hes : selectedFile (run es initialState) = None).
        { apply IH. intros f Hin. apply (Hno f), in_or_app. now left. }
        destruct (handle_selectedFile e (run es initialState))
          as [Heq | (f' & -> & _)]; [now rewrite Heq|].
        exfalso. apply (Hno f'), in_or_app. right. now left. }
  rewrite <- Hnone. unfold mainPanel.
  destruct (selectedFile (run es initialState)) as [f|]; [|tauto].
  split; [|discriminate].
  destruct (viewMode _ =? "explanation"); [discriminate|].
  destruct (getSyntaxStyle _); discriminate.
Qed.

(** X8.  The selected file is always a record of the catalog: a state
    that the page can reach holds no file that [docData.json] does not
    hold. *)
Theorem selected_file_in_catalog {LC : LowerCase} (rawData : Catalog) (s : AppState) :
  reachable rawData s ->
  forall f, selectedFile s = Some f -> In f (allFiles rawData).
Proof.
  induction 1 as [|s e _ IH Hoff]; [discriminate|].
  intros f Hsel.
  destruct (handle_selectedFile e s) as [Heq | (f' & -> & Heq)].
  - apply IH. congruence.
  - assert (f' = f) as -> by congruence.
    cbn [offered] in Hoff. apply List.Exists_exists in Hoff as (g & Hg & Hf).
    assert (Hin : In f (allFiles (filteredData rawData (searchTerm s)))).
    { apply in_allFiles. eauto. }
    exact (proj1 (proj1 (proj1 (filteredData_view rawData (searchTerm s)) f) Hin)).
Qed.

Lemma selected_file_in_catalog_witness :
  let main := {| path := "src/Main.cs"; name := u "Main.cs";
                 explanation := "# Main"; code := "class Main{}" |} in
  let raw := [ {| folder := "src"; files := [main] |} ] in
  In main (allFiles raw).
Proof.
  intros main raw.
  apply (selected_file_in_catalog raw
           (handle (FileRowClick main) (handle (SearchInput (u "MAIN")) initialState))).
  - apply reachable_step; [apply reachable_step; [apply reachable_init | exact I]|].
    cbn [offered]. apply List.Exists_exists.
    exists {| folder := "src"; files := [main] |}.
    split; vm_compute; left; reflexivity.
  - reflexivity.
Defined.

(** X9.  The content panel reads the selected file, the view mode and
    the theme only: events other than a click on a file row, on a tab or
    on a theme button, in any number, leave it as it is.  Typing in the
    search box does not take the file off the panel, also when the
    search filters it out of the tree. *)
Theorem content_panel_frame (es : list Event) (s : AppState) :
  (forall e, In e es ->
     match e with
     | FileRowClick _ | ExplanationTabClick | CodeTabClick
     | ThemeButtonClick _ => False
     | _ => True
     end) ->
  mainPanel (run es s) = mainPanel s.
Proof.
  revert s. induction es as [|e es IH]; intros s Hes; [reflexivity|].
  rewrite run_cons, IH by (intros e' He'; apply Hes; now right).
  specialize (Hes e (or_introl eq_refl)).
  destruct e; try contradiction; try reflexivity.
  cbn [handle]. unfold resize. destruct (isResizing s); [|reflexivity].
  now destruct ((200 <? clientX)%Z && (clientX <? 600)%Z).
Qed.

Lemma content_panel_frame_witness :
  let a_cs := {| path := "a.cs"; name := u "a.cs"; explanation := "# A";
                 code := "class A{}" |} in
  let s := handle (FileRowClick a_cs) initialState in
  mainPanel (run [SearchInput (u "zzz"); MenuButtonClick] s) = mainPanel s.
Proof.
  intros a_cs s.
  apply (content_panel_frame [SearchInput (u "zzz"); MenuButtonClick] s).
  intros e [<- | [<- | []]]; exact I.
Defined.

(** X10.  The mobile menu opens by its button only: once closed it
    stays closed through any events without a click on the menu
    button. *)
Theorem menu_opens_by_button_only (es : list Event) (s : AppState) :
  mobileMenuOpen s = false ->
  ~ In MenuButtonClick es ->
  mobileMenuOpen (run es s) = false.
Proof.
  revert s. induction es as [|e es IH]; intros s Hclosed Hno; [exact Hclosed|].
  rewrite run_cons. apply IH; [|intros H; apply Hno; now right].
  destruct e; cbn [handle]; try exact Hclosed; try reflexivity.
  - exfalso. apply Hno. now left.
  - unfold resize. destruct (isResizing s); [|exact Hclosed].
    now destruct ((200 <? clientX)%Z && (clientX <? 600)%Z).
Qed.

Lemma menu_opens_by_button_only_witness :
  mobileMenuOpen
    (run [SearchInput (u "x"); HandleMouseDown; OverlayClick]
         (handle CloseButtonClick (handle MenuButtonClick initialState))) = false.
Proof.
  apply (menu_opens_by_button_only [SearchInput (u "x"); HandleMouseDown; OverlayClick]
           (handle CloseButtonClick (handle MenuButtonClick initialState))).
  - reflexivity.
  - simpl. intros [H|[H|[H|[]]]]; discriminate.
Defined.

(** ** Searching *)

Section Searching.

Context {LC : LowerCase}.

Lemma string_app_assoc a b c : (a +:+ b) +:+ c = a +:+ (b +:+ c).
Proof.
  induction a as [|x a IH]; [reflexivity|].
  rewrite !append_cons. now rewrite IH.
Qed.

Lemma toLowerCase_empty t : toLowerCase t = [] -> t = [].
Proof.
  intros Ht. destruct t as [|c t]; [reflexivity|].
  now destruct (toLowerCase_nonempty (c :: t)).
Qed.

(** Occurrence of the lower-cased terms is transitive. *)
Lemma containsLowered_trans n t' t :
  containsLowered n t' -> containsLowered t' t -> containsLowered n t.
Proof.
  intros (a & b & Hn) (c & d & Ht').
  exists (a ++ c), (d ++ b). rewrite Hn, Ht'.
  now rewrite <- !app_assoc.
Qed.

Lemma containsLowered_nonempty t' t :
  containsLowered t' t -> t <> [] -> t' <> [].
Proof.
  intros (pre & post & Heq) Ht ->. rewrite toLowerCase_nil in Heq.
  destruct pre; [|discriminate].
  destruct (toLowerCase t) eqn:E; [|discriminate].
  now apply Ht, toLowerCase_empty.
Qed.

Lemma filter_filter_implied {A} (p q : A -> bool) l :
  (forall x, q x = true -> p x = true) ->
  List.filter q (List.filter p l) = List.filter q l.
Proof.
  intros Himp. induction l as [|x l IH]; [reflexivity|]. cbn [List.filter].
  destruct (p x) eqn:Hp; cbn [List.filter]; [now rewrite IH|].
  destruct (q x) eqn:Hq; [|exact IH].
  apply Himp in Hq. congruence.
Qed.

End Searching.

(** X11.  The case of the search term does not matter: two terms that
    are the same up to case give the same view. *)
Theorem filteredData_ignores_term_case {LC : LowerCase} (raw : Catalog)
    (t1 t2 : list N) :
  sameIgnoringCase t1 t2 -> filteredData raw t1 = filteredData raw t2.
Proof.
  unfold sameIgnoringCase. intros Hsame.
  destruct t1 as [|c1 t1], t2 as [|c2 t2].
  - reflexivity.
  - rewrite toLowerCase_nil in Hsame. symmetry in Hsame.
    now apply toLowerCase_empty in Hsame.
  - rewrite toLowerCase_nil in Hsame. now apply toLowerCase_empty in Hsame.
  - rewrite !filteredData_term. now rewrite Hsame.
Qed.

Lemma filteredData_ignores_term_case_witness :
  let readme := {| path := "README.md"; name := u "ReadMe.MD";
                   explanation := ""; code := "" |} in
  let raw := [ {| folder := "."; files := [readme] |} ] in
  filteredData raw (u "README") = filteredData raw (u "readme").
Proof.
  intros readme raw.
  apply (filteredData_ignores_term_case raw (u "README") (u "readme")). reflexivity.
Defined.

(** X12.  Searching inside a result is searching the catalog: when the
    lower-cased old term occurs in the lower-cased new one, filtering
    the old view by the new term gives the view of the new term.  With
    the same term twice, filtering is idempotent. *)
Theorem filteredData_refines {LC : LowerCase} (raw : Catalog) (t t' : list N) :
  containsLowered t' t ->
  filteredData (filteredData raw t) t' = filteredData raw t'.
Proof.
  intros Hsub. destruct t as [|c t]; [reflexivity|].
  destruct t' as [|c' t'].
  { exfalso. now apply (containsLowered_nonempty [] (c :: t) Hsub). }
  rewrite !filteredData_term.
  set (k := fun f => includes (toLowerCase (name f)) (toLowerCase (c :: t))).
  set (k' := fun f => includes (toLowerCase (name f)) (toLowerCase (c' :: t'))).
  assert (Himp : forall f, k' f = true -> k f = true).
  { intros f Hf. apply includes_lower_iff.
    apply (containsLowered_trans _ (c' :: t')); [|exact Hsub].
    now apply includes_lower_iff. }
  induction raw as [|g raw IH]; [reflexivity|].
  cbn [map List.filter files folder].
  rewrite <- (filter_filter_implied k k' (files g) Himp).
  destruct (List.filter k (files g)) as [|f fs] eqn:Hk.
  - simpl. exact IH.
  - simpl. now rewrite IH.
Qed.

Lemma filteredData_refines_witness :
  let main := {| path := "src/Main.cs"; name := u "Main.cs";
                 explanation := ""; code := "" |} in
  let map := {| path := "src/Map.cs"; name := u "Map.cs";
                explanation := ""; code := "" |} in
  let raw := [ {| folder := "src"; files := [main; map] |} ] in
  filteredData (filteredData raw (u "MA")) (u "main") = filteredData raw (u "main").
Proof.
  intros main map raw.
  apply (filteredData_refines raw (u "MA") (u "main")).
  exists [], (u "in"). reflexivity.
Defined.

(** X13.  Under a search term the view is empty exactly when the
    lower-cased name of no file of the catalog contains the lower-cased
    term; the tree then shows nothing. *)
Theorem filteredData_empty_iff {LC : LowerCase} (raw : Catalog) (t : list N) :
  t <> [] ->
  (filteredData raw t = [] <->
   forall f, In f (allFiles raw) -> ~ containsLowered (name f) t) /\
  (filteredData raw t = [] ->
   forall openState selectedPath,
     renderedTree openState (filteredData raw t) selectedPath = []).
Proof.
  intros Ht.
  destruct (filteredData_view raw t) as (Hfiles & _ & _ & _ & Hne & _).
  split; [split|].
  - intros Hnil f Hf Hc.
    assert (Hin : In f (allFiles (filteredData raw t))) by (apply Hfiles; now split).
    rewrite Hnil in Hin. destruct Hin.
  - intros Hno. destruct (filteredData raw t) as [|g' out] eqn:E; [reflexivity|].
    exfalso. specialize (Hne Ht).
    apply Forall_cons_1 in Hne as [Hg' _].
    destruct (files g') as [|f fs] eqn:Ef; [contradiction|].
    assert (Hin : In f (allFiles (g' :: out))).
    { apply in_allFiles. exists g'. split; [now left|]. rewrite Ef. now left. }
    apply Hfiles in Hin as [Hraw Hc]. exact (Hno f Hraw Hc).
  - intros -> openState selectedPath. reflexivity.
Qed.

Lemma filteredData_empty_iff_witness :
  let a_cs := {| path := "a.cs"; name := u "a.cs"; explanation := "# A";
                 code := "class A{}" |} in
  let raw := [ {| folder := "."; files := [a_cs] |} ] in
  renderedTree (fun _ => true) (filteredData raw (u "zzz")) None = [].
Proof.
  intros a_cs raw.
  apply (proj2 (filteredData_empty_iff raw (u "zzz") ltac:(discriminate))).
  reflexivity.
Defined.

(** ** Order and keys *)

Section SortCommutes.

Context {A : Type} (key : A -> Z).

Let cmp (a b : A) : Z := (key a - key b)%Z.
Let le (a b : A) : Prop := (key a <= key b)%Z.

(** A map that keeps the keys goes through the sort. *)
Lemma arraySort_map (f : A -> A) l :
  (forall a, key (f a) = key a) ->
  arraySort cmp (map f l) = map f (arraySort cmp l).
Proof.
  intros Hkey.
  assert (Hins : forall x l', insertSorted cmp (f x) (map f l') =
                              map f (insertSorted cmp x l')).
  { intros x l'. induction l' as [|y l' IH]; [reflexivity|].
    cbn [map insertSorted]. unfold cmp at 1 3. rewrite !Hkey.
    destruct (key x - key y <=? 0)%Z; [reflexivity|].
    cbn [map]. now rewrite IH. }
  induction l as [|x l IH]; [reflexivity|].
  cbn [map arraySort fold_right]. fold (arraySort cmp (map f l)).
  fold (arraySort cmp l). now rewrite IH, Hins.
Qed.

Lemma StronglySorted_filter (p : A -> bool) l :
  StronglySorted le l -> StronglySorted le (List.filter p l).
Proof.
  induction 1 as [|x l _ IH Hall]; [constructor|]. cbn [List.filter].
  destruct (p x); [|exact IH]. constructor; [exact IH|].
  apply List.Forall_forall. intros y Hy. apply filter_In in Hy as [Hy _].
  exact (proj1 (List.Forall_forall _ _) Hall y Hy).
Qed.

Lemma filter_swap (p q : A -> bool) l :
  List.filter p (List.filter q l) = List.filter q (List.filter p l).
Proof.
  induction l as [|x l IH]; [reflexivity|]. cbn [List.filter].
  destruct (p x) eqn:Hp, (q x) eqn:Hq; cbn [List.filter];
    rewrite ?Hp, ?Hq, IH; reflexivity.
Qed.

(** So does a filter: the sort is stable. *)
Lemma arraySort_filter (p : A -> bool) l :
  arraySort cmp (List.filter p l) = List.filter p (arraySort cmp l).
Proof.
  symmetry. apply arraySort_unique.
  - apply StronglySorted_filter, arraySort_sorted.
  - intros k. rewrite filter_swap, arraySort_stable. apply filter_swap.
Qed.

End SortCommutes.

(** X14.  Sorting and searching commute: the groups that [FileTree]
    shows under a term are the groups it shows without one, cut down by
    the term, so no group changes place while the user types. *)
Theorem sort_and_search_commute {LC : LowerCase} (raw : Catalog) (t : list N) :
  sortedFolders (filteredData raw t) = filteredData (sortedFolders raw) t.
Proof.
  destruct t as [|c t]; [reflexivity|].
  rewrite !filteredData_term. unfold sortedFolders, compareFolders.
  rewrite (arraySort_filter folderLength).
  now rewrite (arraySort_map folderLength).
Qed.

Section Keys.

Context {LC : LowerCase}.

Lemma allFiles_cons g c : allFiles (g :: c) = (files g ++ allFiles c)%list.
Proof. reflexivity. Qed.

Lemma filteredData_allFiles_sublist raw t :
  sublist (allFiles (filteredData raw t)) (allFiles raw).
Proof.
  destruct t as [|c t]; [reflexivity|]. rewrite filteredData_term.
  induction raw as [|g raw IH]; [constructor|].
  cbn [map List.filter files]. rewrite allFiles_cons.
  match goal with |- context [if ?b then _ else _] => destruct b end.
  - rewrite allFiles_cons. cbn [files].
    apply sublist_app; [apply filter_sublist | exact IH].
  - now apply sublist_inserts_l.
Qed.

Lemma map_sublist {X Y} (f : X -> Y) (l1 l2 : list X) :
  sublist l1 l2 -> sublist (map f l1) (map f l2).
Proof. induction 1; cbn [map]; now constructor. Qed.

Lemma renderedTree_node openState data selectedPath n :
  In n (renderedTree openState data selectedPath) ->
  exists g, In g data /\
            FolderGroup (openState (folder g)) selectedPath g = Some n.
Proof.
  unfold renderedTree. intros Hin.
  apply list_elem_of_In, list_elem_of_omap in Hin as ([g out] & Hin & Hout).
  cbn [snd] in Hout. subst out. apply list_elem_of_In in Hin.
  unfold FileTree in Hin. apply in_map_iff in Hin as (g' & Heq & Hg).
  injection Heq as -> Hn. exists g. split; [|exact Hn].
  eapply Permutation_in; [apply (arraySort_perm folderLength)|exact Hg].
Qed.

Lemma FolderGroup_rows isOpen selectedPath g n :
  FolderGroup isOpen selectedPath g = Some n ->
  node_rows n = if isOpen then map (fileRow selectedPath) (files g) else [].
Proof.
  unfold FolderGroup. destruct (length (files g) =? 0)%nat; [discriminate|].
  now intros [= <-].
Qed.

End Keys.

(** X15.  Filtering keeps the order of the files and makes no copies:
    the files of the view, read folder by folder, are a sublist of the
    files of the catalog; paths that are distinct in the catalog are
    distinct in the view. *)
Theorem filteredData_keeps_file_order {LC : LowerCase} (raw : Catalog) (t : list N) :
  sublist (allFiles (filteredData raw t)) (allFiles raw) /\
  (NoDup (map path (allFiles raw)) ->
   NoDup (map path (allFiles (filteredData raw t)))).
Proof.
  split; [apply filteredData_allFiles_sublist|].
  intros Hnd. eapply sublist_NoDup; [exact Hnd|].
  apply map_sublist, filteredData_allFiles_sublist.
Qed.

(** X16.  The React keys stay distinct: when the folder names of the
    catalog are distinct and the paths inside each folder are, then for
    every search term the [FolderGroup] elements have distinct keys and
    so have the rows of every folder on the page. *)
Theorem tree_keys_distinct {LC : LowerCase} (rawData : Catalog) (t : list N)
    (openState : string -> bool) (selectedPath : option string) :
  NoDup (map folder rawData) ->
  (forall g, In g rawData -> NoDup (map path (files g))) ->
  NoDup (map (fun el => folder (fst el))
             (FileTree openState (filteredData rawData t) selectedPath)) /\
  (forall n, In n (renderedTree openState (filteredData rawData t) selectedPath) ->
             NoDup (map row_key (node_rows n))).
Proof.
  intros Hfolders Hpaths.
  destruct (filteredData_view rawData t) as (_ & Hgroups & _ & Hsub & _).
  split.
  - rewrite <- (map_map fst folder), FileTree_groups.
    assert (Hperm : Permutation (map folder (sortedFolders (filteredData rawData t)))
                                (map folder (filteredData rawData t))).
    { apply Permutation_map, (arraySort_perm folderLength). }
    rewrite Hperm. eapply sublist_NoDup; [exact Hfolders | exact Hsub].
  - intros n Hn. apply renderedTree_node in Hn as (g' & Hg' & Hrender).
    rewrite (FolderGroup_rows _ _ _ _ Hrender).
    destruct (openState (folder g')); [|constructor].
    rewrite map_map. cbn [fileRow row_key].
    destruct (Hgroups g' Hg') as (g & Hg & _ & Hfiles & _).
    eapply sublist_NoDup; [exact (Hpaths g Hg)|]. now apply map_sublist.
Qed.

Lemma tree_keys_distinct_witness :
  let a := {| path := "a.cs"; name := u "a.cs"; explanation := ""; code := "" |} in
  let b := {| path := "src/a.cs"; name := u "a.cs"; explanation := ""; code := "" |} in
  let raw := [ {| folder := "."; files := [a] |};
               {| folder := "src"; files := [b] |} ] in
  NoDup (map (fun el => folder (fst el))
             (FileTree (fun _ => true) (filteredData raw (u "A")) None)).
Proof.
  intros a b raw.
  apply (tree_keys_distinct raw (u "A") (fun _ => true) None).
  - refine (bool_decide_unpack _ _). vm_compute. exact I.
  - intros g [<- | [<- | []]]; refine (bool_decide_unpack _ _); vm_compute; exact I.
Defined.

(** ** The rows of the tree *)

(** X17.  Every file row on the page stands for a file of the filtered
    catalog: its click is an event that the page offers in this state,
    it selects the record whose path is the row's key and whose name is
    the row's label, and the row is highlighted exactly when that path
    is the path of the selected file. *)
Theorem page_rows_offered {LC : LowerCase}
    (rawData : Catalog) (openState : string -> bool)
    (s : AppState) (page : Page) :
  App rawData openState s = Some page ->
  forall n row, In n (page_tree page) -> In row (node_rows n) ->
    offered rawData s (row_onClick row) /\
    exists f, row_onClick row = FileRowClick f /\
              row_key row = path f /\
              row_label row = name f /\
              selectedFile (handle (row_onClick row) s) = Some f /\
              (row_highlighted row = true <->
               path <$> selectedFile s = Some (path f)).
Proof.
  intros Happ n row Hn Hrow. unfold App in Happ.
  destruct (activeAccentObj s) as [acc|]; [|discriminate].
  destruct (activeThemeObj s) as [thm|]; [|discriminate].
  destruct (mainPanel s) as [main|]; [|discriminate].
  cbn in Happ. injection Happ as <-. cbn [page_tree] in Hn.
  apply renderedTree_node in Hn as (g & Hg & Hrender).
  rewrite (FolderGroup_rows _ _ _ _ Hrender) in Hrow.
  destruct (openState (folder g)); [|destruct Hrow].
  apply in_map_iff in Hrow as (f & <- & Hf). cbn [fileRow row_onClick]. split.
  - cbn [offered]. apply List.Exists_exists. eauto.
  - exists f. repeat split.
    + intros H. now apply bool_decide_eq_true in H.
    + intros H. now apply bool_decide_eq_true.
Qed.

Lemma page_rows_offered_witness :
  let a_cs := {| path := "a.cs"; name := u "a.cs"; explanation := "# A";
                 code := "class A{}" |} in
  let raw := [ {| folder := "."; files := [a_cs] |} ] in
  offered raw initialState (FileRowClick a_cs).
Proof.
  intros a_cs raw.
  pose (row := fileRow None a_cs).
  pose (node := {| node_displayName := "Root"; node_isOpen := true;
                   node_rows := [row] |}).
  pose (page := {| page_accentSwatch := "#059669";
                   page_themeLabel := "GitHub Dark";
                   page_tree := [node];
                   page_main := Placeholder |}).
  apply (proj1 (page_rows_offered raw (fun _ => true) initialState page
                  eq_refl node row (or_introl eq_refl) (or_introl eq_refl))).
Defined.

(** ** What the theme effect writes *)

Section ThemeEffectWrites.

Lemma elem_of_tokenAdd c c' l : c' ∈ tokenAdd c l <-> c' = c \/ c' ∈ l.
Proof.
  unfold tokenAdd. destruct (bool_decide (c ∈ l)) eqn:E.
  - apply bool_decide_eq_true in E. split; [now right|]. now intros [->|].
  - rewrite elem_of_app, list_elem_of_singleton. tauto.
Qed.

Lemma elem_of_tokenRemove c c' l : c' ∈ tokenRemove c l <-> c' <> c /\ c' ∈ l.
Proof.
  unfold tokenRemove. rewrite !list_elem_of_In, filter_In, negb_true_iff.
  destruct (String.eqb_spec c' c); split; intros []; (split || idtac);
    congruence.
Qed.

Lemma NoDup_tokenAdd c l : NoDup l -> NoDup (tokenAdd c l).
Proof.
  intros Hl. unfold tokenAdd. destruct (bool_decide (c ∈ l)) eqn:E; [exact Hl|].
  apply bool_decide_eq_false in E. apply NoDup_app. split; [exact Hl|]. split.
  - intros x Hx Hc. apply list_elem_of_singleton in Hc. now subst.
  - apply NoDup_singleton.
Qed.

Lemma NoDup_tokenRemove c l : NoDup l -> NoDup (tokenRemove c l).
Proof. intros Hl. eapply sublist_NoDup; [exact Hl | apply filter_sublist]. Qed.

(** The colours of the table are not empty, so [setProperty] sets. *)
Lemma accent_colours_set a :
  In a ACCENTS -> falsy (ac_color a) = false /\ falsy (ac_dim a) = false.
Proof.
  cbn. intros H. repeat (destruct H as [<- | H]; [now split|]). destruct H.
Qed.

Lemma styleSet_over k1 v1 k2 v2 (m m' : gmap string string) :
  (forall i, i <> k1 -> i <> k2 -> m !! i = m' !! i) ->
  styleSet k2 v2 (styleSet k1 v1 m) = styleSet k2 v2 (styleSet k1 v1 m').
Proof.
  intros Hm. apply map_eq. intros i. rewrite !lookup_styleSet.
  destruct (decide (k2 = i)); [reflexivity|].
  destruct (decide (k1 = i)); [reflexivity|]. apply Hm; congruence.
Qed.

Lemma themeEffect_style_other t a d k :
  k <> "--accent" -> k <> "--accent-dim" ->
  doc_style (themeEffect t a d) !! k = doc_style d !! k.
Proof.
  intros H1 H2. rewrite themeEffect_style.
  destruct (findAccent a); [|reflexivity]. rewrite !lookup_styleSet.
  rewrite decide_False by congruence. now rewrite decide_False by congruence.
Qed.

End ThemeEffectWrites.

(** X18.  For a theme and an accent of the tables the effect leaves the
    document with the theme id in [data-theme], with the class [dark]
    exactly when the theme is dark, and with the two colours of the
    accent in [--accent] and [--accent-dim]. *)
Theorem themeEffect_applies (th : Theme) (ac : Accent) (d : Document) :
  In th THEMES -> In ac ACCENTS ->
  let d' := themeEffect (th_id th) (ac_id ac) d in
  doc_attributes d' !! "data-theme" = Some (th_id th) /\
  ("dark" ∈ doc_classList d' <-> th_isDark th = true) /\
  doc_style d' !! "--accent" = Some (ac_color ac) /\
  doc_style d' !! "--accent-dim" = Some (ac_dim ac).
Proof.
  intros Hth Hac d'. subst d'.
  rewrite themeEffect_attributes, themeEffect_classList, themeEffect_style.
  rewrite (findTheme_declared th Hth), (findAccent_declared ac Hac).
  destruct (accent_colours_set ac Hac) as [Hc Hd].
  split; [apply lookup_insert_eq|]. split; [|split].
  - cbn [optIsDark]. destruct (th_isDark th).
    + rewrite elem_of_tokenAdd. split; auto.
    + rewrite elem_of_tokenRemove. split; [intros [H _]; congruence | discriminate].
  - rewrite !lookup_styleSet, Hc.
    rewrite decide_False by discriminate. now rewrite decide_True.
  - rewrite lookup_styleSet, Hd. now rewrite decide_True.
Qed.

Lemma themeEffect_applies_witness :
  let light := {| th_id := "light"; th_name := "Light"; th_isDark := false |} in
  let rose := {| ac_id := "rose"; ac_name := "Rose"; ac_color := "#e11d48";
                 ac_dim := "rgba(225, 29, 72, 0.15)" |} in
  let d := {| doc_attributes := ∅; doc_classList := ["dark"]; doc_style := ∅ |} in
  doc_attributes (themeEffect "light" "rose" d) !! "data-theme" = Some "light" /\
  ("dark" ∈ doc_classList (themeEffect "light" "rose" d) <-> false = true) /\
  doc_style (themeEffect "light" "rose" d) !! "--accent" = Some "#e11d48" /\
  doc_style (themeEffect "light" "rose" d) !! "--accent-dim"
    = Some "rgba(225, 29, 72, 0.15)".
Proof.
  intros light rose d.
  apply (themeEffect_applies light rose d); cbn; auto 10.
Defined.

(** X19.  The effect writes nothing else: every attribute other than
    [data-theme], [class] and [style] is as before; of the class list
    only the token [dark] comes or goes; of the style declarations only
    [--accent] and [--accent-dim] are written; and a class list without
    repetitions stays without. *)
Theorem themeEffect_frame (themeId accentId : string) (d : Document) :
  let d' := themeEffect themeId accentId d in
  (forall k, k <> "data-theme" -> k <> "class" -> k <> "style" ->
             doc_attributes d' !! k = doc_attributes d !! k) /\
  (forall c, c <> "dark" -> (c ∈ doc_classList d' <-> c ∈ doc_classList d)) /\
  (forall k, k <> "--accent" -> k <> "--accent-dim" ->
             doc_style d' !! k = doc_style d !! k) /\
  (NoDup (doc_classList d) -> NoDup (doc_classList d')).
Proof.
  cbv zeta.
  rewrite themeEffect_attributes, themeEffect_classList.
  split; [|split; [|split]].
  - intros k Hk _ _. now apply lookup_insert_ne.
  - intros c Hc. destruct (optIsDark (findTheme themeId)).
    + rewrite elem_of_tokenAdd. tauto.
    + rewrite elem_of_tokenRemove. tauto.
  - intros k H1 H2. now apply themeEffect_style_other.
  - intros Hnd. destruct (optIsDark (findTheme themeId)).
    + now apply NoDup_tokenAdd.
    + now apply NoDup_tokenRemove.
Qed.

(** X20.  The last pick wins, but for the order of the classes: with an
    accent of the table, after a later run of the effect the attributes
    other than [class] and [style], the style declarations and the set
    of classes are those of the later run alone.  The order of the
    tokens in [class] can still tell what ran before. *)
Theorem themeEffect_last_wins (t1 a1 t2 a2 : string) (d : Document) :
  is_Some (findAccent a2) ->
  let d12 := themeEffect t2 a2 (themeEffect t1 a1 d) in
  let d2 := themeEffect t2 a2 d in
  (forall k, k <> "class" -> k <> "style" ->
             doc_attributes d12 !! k = doc_attributes d2 !! k) /\
  doc_style d12 = doc_style d2 /\
  (forall c, c ∈ doc_classList d12 <-> c ∈ doc_classList d2).
Proof.
  intros [acc2 Hacc2]. cbv zeta.
  rewrite !themeEffect_attributes.
  rewrite (themeEffect_classList t2 a2 (themeEffect t1 a1 d)).
  rewrite (themeEffect_classList t2 a2 d).
  rewrite (themeEffect_style t2 a2 (themeEffect t1 a1 d)).
  rewrite (themeEffect_style t2 a2 d), Hacc2.
  split; [intros k _ _; now rewrite insert_insert_eq|]. split.
  - apply styleSet_over. intros i H1 H2.
    apply themeEffect_style_other; congruence.
  - intros c. rewrite (themeEffect_classList t1 a1 d).
    destruct (optIsDark (findTheme t2)), (optIsDark (findTheme t1));
      repeat (rewrite elem_of_tokenAdd || rewrite elem_of_tokenRemove);
      destruct (decide (c = "dark")); tauto.
Qed.

(** From the classes [dark app], the light theme and then a dark one
    leave [app dark]; the dark one alone leaves [dark app]. *)
Example class_order_tells_history :
  let d := {| doc_attributes := ∅; doc_classList := ["dark"; "app"];
              doc_style := ∅ |} in
  doc_classList (themeEffect "github" "blue" (themeEffect "light" "blue" d))
    = ["app"; "dark"] /\
  doc_classList (themeEffect "github" "blue" d) = ["dark"; "app"].
Proof. split; reflexivity. Qed.

Lemma themeEffect_last_wins_witness :
  let d := {| doc_attributes := ∅; doc_classList := ["app"]; doc_style := ∅ |} in
  doc_style (themeEffect "light" "blue" (themeEffect "dracula" "rose" d)) =
  doc_style (themeEffect "light" "blue" d).
Proof.
  intros d.
  apply (themeEffect_last_wins "dracula" "rose" "light" "blue" d).
  cbn. eauto.
Defined.

(** X21.  Ids outside the tables: a theme id that [THEMES] does not
    hold still goes into [data-theme] and takes the class [dark] away;
    an accent id that [ACCENTS] does not hold leaves the style
    properties as they are, those of an earlier accent included. *)
Theorem themeEffect_unknown_ids (themeId accentId : string) (d : Document) :
  (findTheme themeId = None ->
   doc_attributes (themeEffect themeId accentId d) !! "data-theme" = Some themeId /\
   "dark" ∉ doc_classList (themeEffect themeId accentId d)) /\
  (findAccent accentId = None ->
   doc_style (themeEffect themeId accentId d) = doc_style d).
Proof.
  split.
  - intros Hnone. rewrite themeEffect_attributes, themeEffect_classList, Hnone.
    split; [apply lookup_insert_eq|]. cbn [optIsDark].
    rewrite elem_of_tokenRemove. tauto.
  - intros Hnone. now rewrite themeEffect_style, Hnone.
Qed.

Lemma themeEffect_unknown_ids_witness :
  let d := themeEffect "dracula" "rose"
             {| doc_attributes := ∅; doc_classList := []; doc_style := ∅ |} in
  ("dark" ∉ doc_classList (themeEffect "midnight" "teal" d)) /\
  doc_style (themeEffect "midnight" "teal" d) !! "--accent" = Some "#e11d48".
Proof.
  intros d.
  destruct (themeEffect_unknown_ids "midnight" "teal" d) as [Ht Ha].
  split.
  - apply Ht. reflexivity.
  - rewrite Ha by reflexivity. reflexivity.
Defined.

(** ** The picker menus *)

Section Pickers.

Lemma themeButtons_active th s :
  In th THEMES -> currentTheme s = th_id th ->
  List.filter btn_active (themeButtons s) =
  [ {| btn_key := th_id th; btn_label := th_name th; btn_active := true;
       btn_onClick := ThemeButtonClick th |} ].
Proof.
  intros Hin Hcur. unfold themeButtons. rewrite Hcur. cbn in Hin.
  repeat (destruct Hin as [<- | Hin]; [reflexivity|]). destruct Hin.
Qed.

Lemma accentButtons_active ac s :
  In ac ACCENTS -> currentAccent s = ac_id ac ->
  List.filter btn_active (accentButtons s) =
  [ {| btn_key := ac_id ac; btn_label := ac_name ac; btn_active := true;
       btn_onClick := AccentButtonClick ac |} ].
Proof.
  intros Hin Hcur. unfold accentButtons. rewrite Hcur. cbn in Hin.
  repeat (destruct Hin as [<- | Hin]; [reflexivity|]). destruct Hin.
Qed.

End Pickers.

(** X22.  In every state the page can reach, each picker marks one
    button, the one of the active theme and the one of the active
    accent; no state marks none or two. *)
Theorem pickers_mark_one_button {LC : LowerCase} (rawData : Catalog) (s : AppState) :
  reachable rawData s ->
  exists th ac,
    activeThemeObj s = Some th /\ activeAccentObj s = Some ac /\
    List.filter btn_active (themeButtons s) =
      [ {| btn_key := th_id th; btn_label := th_name th; btn_active := true;
           btn_onClick := ThemeButtonClick th |} ] /\
    List.filter btn_active (accentButtons s) =
      [ {| btn_key := ac_id ac; btn_label := ac_name ac; btn_active := true;
           btn_onClick := AccentButtonClick ac |} ].
Proof.
  intros Hr. destruct (reachable_idsDeclared _ _ Hr) as [Ht Ha].
  destruct (declared_theme_found _ Ht) as (th & Hft & Hth & Hid).
  destruct (declared_accent_found _ Ha) as (ac & Hfa & Hac & Hia).
  exists th, ac. split; [exact Hft|]. split; [exact Hfa|]. split.
  - now apply themeButtons_active.
  - now apply accentButtons_active.
Qed.

Lemma pickers_mark_one_button_witness :
  let vscode := {| th_id := "vscode"; th_name := "VS Code"; th_isDark := true |} in
  exists th ac,
    activeThemeObj (handle (ThemeButtonClick vscode) initialState) = Some th /\
    activeAccentObj (handle (ThemeButtonClick vscode) initialState) = Some ac /\
    List.filter btn_active
      (themeButtons (handle (ThemeButtonClick vscode) initialState)) =
      [ {| btn_key := th_id th; btn_label := th_name th; btn_active := true;
           btn_onClick := ThemeButtonClick th |} ] /\
    List.filter btn_active
      (accentButtons (handle (ThemeButtonClick vscode) initialState)) =
      [ {| btn_key := ac_id ac; btn_label := ac_name ac; btn_active := true;
           btn_onClick := AccentButtonClick ac |} ].
Proof.
  intros vscode.
  apply (pickers_mark_one_button [] (handle (ThemeButtonClick vscode) initialState)).
  apply reachable_step; [apply reachable_init|]. cbn. auto 10.
Defined.

(** X23.  A click on a theme button of the menu makes that theme the
    active one: the page renders and its header shows the name of the
    clicked theme, whatever the theme was before, and the accent is
    untouched.  The same holds for an accent button, the swatch of the
    header and the theme. *)
Theorem picker_click_activates {LC : LowerCase}
    (rawData : Catalog) (openState : string -> bool)
    (s : AppState) (th : Theme) (ac : Accent) :
  In th THEMES -> In ac ACCENTS ->
  is_Some (activeThemeObj s) -> is_Some (activeAccentObj s) ->
  (exists page,
     App rawData openState (handle (ThemeButtonClick th) s) = Some page /\
     page_themeLabel page = th_name th) /\
  (exists page,
     App rawData openState (handle (AccentButtonClick ac) s) = Some page /\
     page_accentSwatch page = ac_color ac) /\
  currentAccent (handle (ThemeButtonClick th) s) = currentAccent s /\
  currentTheme (handle (AccentButtonClick ac) s) = currentTheme s.
Proof.
  intros Hth Hac [th0 Hth0] [ac0 Hac0]. split; [|split; [|split; reflexivity]].
  - assert (Ht : activeThemeObj (handle (ThemeButtonClick th) s) = Some th)
      by apply (findTheme_declared th Hth).
    destruct (mainPanel_defined (handle (ThemeButtonClick th) s)) as [m Hm];
      [rewrite Ht; eauto|].
    unfold App. rewrite Ht, Hm.
    change (activeAccentObj (handle (ThemeButtonClick th) s))
      with (activeAccentObj s).
    rewrite Hac0. cbn. eauto.
  - assert (Ha : activeAccentObj (handle (AccentButtonClick ac) s) = Some ac)
      by apply (findAccent_declared ac Hac).
    destruct (mainPanel_defined (handle (AccentButtonClick ac) s)) as [m Hm].
    { change (activeThemeObj (handle (AccentButtonClick ac) s))
        with (activeThemeObj s). rewrite Hth0. eauto. }
    unfold App. rewrite Ha, Hm.
    change (activeThemeObj (handle (AccentButtonClick ac) s))
      with (activeThemeObj s).
    rewrite Hth0. cbn. eauto.
Qed.

Lemma picker_click_activates_witness :
  let solar := {| th_id := "solarized"; th_name := "Solarized";
                  th_isDark := false |} in
  let blue := {| ac_id := "blue"; ac_name := "Blue"; ac_color := "#2563eb";
                 ac_dim := "rgba(37, 99, 235, 0.15)" |} in
  exists page,
    App [] (fun _ => true) (handle (ThemeButtonClick solar) initialState)
      = Some page /\
    page_themeLabel page = "Solarized".
Proof.
  intros solar blue.
  apply (picker_click_activates [] (fun _ => true) initialState solar blue).
  - cbn. auto 10.
  - cbn. auto 10.
  - cbn. eauto.
  - cbn. eauto.
Defined.

(** ** Fenced code in the explanation *)

Section CodeOverride.

Lemma takeWord_prefix s : exists post, s = takeWord s +:+ post.
Proof.
  induction s as [|c s [post IH]]; [now exists ""|]. cbn [takeWord].
  destruct (isWordChar c).
  - exists post. rewrite append_cons. now rewrite <- IH.
  - now exists (String c s).
Qed.

Lemma takeWord_idem s : takeWord (takeWord s) = takeWord s.
Proof.
  induction s as [|c s IH]; [reflexivity|]. cbn [takeWord].
  destruct (isWordChar c) eqn:E; [|reflexivity].
  cbn [takeWord]. now rewrite E, IH.
Qed.

Lemma takeWord_app w rest :
  takeWord w = w -> takeWord (w +:+ rest) = w +:+ takeWord rest.
Proof.
  induction w as [|c w IH]; [reflexivity|]. cbn [takeWord].
  destruct (isWordChar c) eqn:E; [|discriminate].
  intros [= Hw]. rewrite !append_cons. cbn [takeWord]. now rewrite E, IH.
Qed.

Lemma dropUnits_language rest : dropUnits 9 ("language-" +:+ rest) = rest.
Proof. reflexivity. Qed.

Lemma matchLanguageAt_Some s w :
  matchLanguageAt s = Some w ->
  w <> "" /\ takeWord w = w /\ exists post, s = "language-" +:+ w +:+ post.
Proof.
  unfold matchLanguageAt.
  destruct (startsWith s "language-") eqn:Hstart; [|discriminate].
  apply startsWith_spec in Hstart as [rest ->]. rewrite dropUnits_language.
  destruct (takeWord rest) as [|c w'] eqn:Hw; [discriminate|].
  cbn [falsy]. intros [= <-]. split; [discriminate|]. split.
  - rewrite <- Hw. apply takeWord_idem.
  - destruct (takeWord_prefix rest) as [post Hpost]. exists post.
    now rewrite <- Hw, <- Hpost.
Qed.

Lemma matchLanguageAt_word c post :
  isWordChar c = true ->
  matchLanguageAt ("language-" +:+ String c post) = Some (String c (takeWord post)).
Proof.
  intros Hc. unfold matchLanguageAt.
  rewrite (proj2 (startsWith_spec _ _)) by eauto.
  rewrite dropUnits_language. cbn [takeWord]. now rewrite Hc.
Qed.

Lemma stripTrailingNewline_cons c s :
  s <> "" -> stripTrailingNewline (String c s) = String c (stripTrailingNewline s).
Proof.
  intros Hs. cbn [stripTrailingNewline]. destruct s; [contradiction|].
  cbn [falsy]. now rewrite andb_false_r.
Qed.

Lemma stripTrailingNewline_added s :
  stripTrailingNewline (s +:+ String "010" "") = s.
Proof.
  induction s as [|c s IH]; [reflexivity|].
  rewrite append_cons, stripTrailingNewline_cons, IH; [reflexivity|].
  destruct s; discriminate.
Qed.

Lemma execLanguage_here s w :
  matchLanguageAt s = Some w -> execLanguage s = Some w.
Proof. destruct s; cbn [execLanguage]; now intros ->. Qed.

Lemma execLanguage_later c s :
  matchLanguageAt (String c s) = None ->
  execLanguage (String c s) = execLanguage s.
Proof. cbn [execLanguage]. now intros ->. Qed.

Lemma append_nil_r s : s +:+ "" = s.
Proof. induction s as [|c s IH]; [reflexivity|]. now rewrite append_cons, IH. Qed.

Lemma execLanguage_fence w rest :
  takeWord w = w -> w <> "" -> takeWord rest = "" ->
  execLanguage ("language-" +:+ w +:+ rest) = Some w.
Proof.
  intros Hw Hne Hrest. destruct w as [|c w]; [contradiction|].
  assert (Hc : isWordChar c = true).
  { cbn [takeWord] in Hw. destruct (isWordChar c); [reflexivity | discriminate]. }
  rewrite (append_cons c w rest).
  rewrite (execLanguage_here _ _ (matchLanguageAt_word c (w +:+ rest) Hc)).
  cbn [takeWord] in Hw. rewrite Hc in Hw. injection Hw as Hw.
  now rewrite (takeWord_app w rest Hw), Hrest, append_nil_r.
Qed.

Lemma stripTrailingNewline_other s :
  (forall s', s <> s' +:+ String "010" "") -> stripTrailingNewline s = s.
Proof.
  induction s as [|c s IH]; intros Hno; [reflexivity|].
  destruct s as [|d s].
  - cbn [stripTrailingNewline falsy]. rewrite andb_true_r.
    destruct (Ascii.eqb_spec c "010"); [|reflexivity].
    subst c. exfalso. now apply (Hno "").
  - rewrite stripTrailingNewline_cons by discriminate. rewrite IH; [reflexivity|].
    intros s' Hs'. apply (Hno (String c s')). rewrite append_cons. now rewrite Hs'.
Qed.

Lemma execLanguage_Some className language :
  execLanguage className = Some language ->
  language <> "" /\ takeWord language = language /\
  exists pre post, className = pre +:+ "language-" +:+ language +:+ post.
Proof.
  induction className as [|c s IH]; cbn [execLanguage].
  - destruct (matchLanguageAt "") eqn:E; [discriminate E | discriminate].
  - destruct (matchLanguageAt (String c s)) as [w|] eqn:E.
    + intros [= <-]. apply matchLanguageAt_Some in E as (H1 & H2 & post & H3).
      split; [exact H1|]. split; [exact H2|]. now exists "", post.
    + intros H. destruct (IH H) as (H1 & H2 & pre & post & H3).
      split; [exact H1|]. split; [exact H2|].
      exists (String c pre), post. rewrite append_cons. now rewrite H3.
Qed.

End CodeOverride.

(** X24.  The pattern [/language-(\w+)/] matches exactly the class
    names that hold [language-] followed by a word character, and what
    it hands out is a language name: a non-empty run of word characters
    that stands in the class name right after [language-].  A class name
    without that, the empty one included, gets no highlighter. *)
Theorem execLanguage_characterised (className : string) :
  (is_Some (execLanguage className) <->
   exists pre c post,
     className = pre +:+ "language-" +:+ String c post /\ isWordChar c = true) /\
  (forall language,
     execLanguage className = Some language ->
     language <> "" /\ takeWord language = language /\
     exists pre post, className = pre +:+ "language-" +:+ language +:+ post).
Proof.
  split; [|apply execLanguage_Some]. split.
  - intros [l Hl].
    destruct (execLanguage_Some className l Hl) as (Hne & Hw & pre & post & ->).
    destruct l as [|c l]; [contradiction|]. exists pre, c, (l +:+ post).
    split; [now rewrite append_cons|].
    cbn [takeWord] in Hw. destruct (isWordChar c); [reflexivity | discriminate].
  - intros (pre & c & post & -> & Hc). induction pre as [|x pre IH].
    + rewrite append_nil.
      rewrite (execLanguage_here _ _ (matchLanguageAt_word c post Hc)). eauto.
    + rewrite append_cons.
      destruct (matchLanguageAt
                  (String x (pre +:+ "language-" +:+ String c post))) eqn:E.
      * rewrite (execLanguage_here _ _ E). eauto.
      * rewrite (execLanguage_later _ _ E). exact IH.
Qed.

Lemma execLanguage_characterised_witness :
  exists pre post, "hljs language-c++" = pre +:+ "language-" +:+ "c" +:+ post.
Proof.
  apply (proj2 (execLanguage_characterised "hljs language-c++") "c"). reflexivity.
Defined.

(** X25.  [replace(/\n$/, '')] takes one final line feed and nothing
    else: a text to which a line feed was added comes back as it was,
    and a text that does not end in a line feed is not changed. *)
Theorem stripTrailingNewline_spec (s : string) :
  stripTrailingNewline (s +:+ String "010" "") = s /\
  ((forall s', s <> s' +:+ String "010" "") -> stripTrailingNewline s = s).
Proof.
  split; [apply stripTrailingNewline_added | apply stripTrailingNewline_other].
Qed.

Lemma stripTrailingNewline_spec_witness :
  stripTrailingNewline "ab" = "ab".
Proof.
  apply (proj2 (stripTrailingNewline_spec "ab")).
  intros s' H. destruct s' as [|c [|d [|e s']]]; discriminate H.
Defined.

(** X26.  In a state the page can reach, a fenced block whose class is
    [language-] and a word goes to the highlighter under that word as
    language, with the style of the current theme and with its text less
    the final line feed; inline code and code without a class never go
    to the highlighter and keep their text. *)
Theorem codeOverride_fenced_block {LC : LowerCase} (rawData : Catalog) (s : AppState)
    (w body : string) :
  reachable rawData s ->
  takeWord w = w -> w <> "" ->
  (exists style,
     getSyntaxStyle s = Some style /\
     codeOverride s false (Some ("language-" +:+ w)) (body +:+ String "010" "") =
       Some (HighlightedBlock
               {| hl_language := w; hl_style := style;
                  hl_showLineNumbers := false; hl_children := body |})) /\
  (forall className children,
     exists cls, codeOverride s true className children
                 = Some (InlineCode cls children)) /\
  (forall inline children,
     exists cls, codeOverride s inline None children
                 = Some (InlineCode cls children)).
Proof.
  intros Hr Hw Hne. split; [|split].
  - destruct (reachable_idsDeclared _ _ Hr) as [Ht _].
    destruct (declared_theme_found _ Ht) as (th & Hft & _ & _).
    destruct (getSyntaxStyle_defined s) as [style Hst];
      [unfold activeThemeObj; eauto|].
    exists style. split; [exact Hst|]. unfold codeOverride.
    rewrite <- (append_nil_r ("language-" +:+ w)), string_app_assoc.
    rewrite (execLanguage_fence w "" Hw Hne eq_refl). cbn [negb].
    rewrite Hst. cbn. now rewrite stripTrailingNewline_added.
  - intros className children. unfold codeOverride. cbn [negb]. eauto.
  - intros inline children. unfold codeOverride. cbn [execLanguage].
    destruct (negb inline); eauto.
Qed.

Lemma codeOverride_fenced_block_witness :
  exists style,
    getSyntaxStyle initialState = Some style /\
    codeOverride initialState false (Some "language-csharp")
                 ("class A{}" +:+ String "010" "") =
      Some (HighlightedBlock
              {| hl_language := "csharp"; hl_style := style;
                 hl_showLineNumbers := false; hl_children := "class A{}" |}).
Proof.
  apply (proj1 (codeOverride_fenced_block [] initialState "csharp" "class A{}"
                  (reachable_init []) eq_refl ltac:(discriminate))).
Defined.

(** ** The [useMemo] on any store *)

Section StoreAny.

Context {LC : LowerCase}.

Implicit Types (h : store) (l : positive).

Lemma keepFileJs_readonly lowerTerm e h h' b :
  keepFileJs lowerTerm e h = Some (h', b) -> h' = h.
Proof.
  unfold keepFileJs, bind, readFile, ret.
  destruct (h !! e) as [[f| |]|]; try discriminate. now intros [= <- _].
Qed.

Lemma hasFilesJs_readonly e h h' b : hasFilesJs e h = Some (h', b) -> h' = h.
Proof.
  unfold hasFilesJs, bind, readGroup, Array_length, bind, readArray, ret.
  destruct (h !! e) as [[|fo fi|]|]; try discriminate. cbn [snd].
  destruct (h !! fi) as [[| |es]|]; try discriminate. now intros [= <- _].
Qed.

Lemma forEachFilter_readonly (p : positive -> Js bool) es : forall h h' r,
  (forall e h0 h1 b, p e h0 = Some (h1, b) -> h1 = h0) ->
  forEachFilter p es h = Some (h', r) -> h' = h.
Proof.
  induction es as [|e es IH]; intros h h' r Hp; cbn [forEachFilter].
  - unfold ret. now intros [= <- _].
  - unfold bind at 1. destruct (p e h) as [[h1 b]|] eqn:E; [|discriminate].
    apply Hp in E as ->. unfold bind at 1.
    destruct (forEachFilter p es h) as [[h2 r']|] eqn:E2; [|discriminate].
    apply IH in E2 as ->; [|exact Hp]. unfold ret. now intros [= <- _].
Qed.

(** [filter] with a callback that only reads adds one array, at a
    reference that was free. *)
Lemma Array_filter_adds (p : positive -> Js bool) arr h h' k :
  (forall e h0 h1 b, p e h0 = Some (h1, b) -> h1 = h0) ->
  Array_filter arr p h = Some (h', k) ->
  h !! k = None /\ exists es, h' = <[k := ObjArray es]> h.
Proof.
  intros Hp. unfold Array_filter, bind, readArray.
  destruct (h !! arr) as [[| |es]|]; try discriminate.
  destruct (forEachFilter p es h) as [[h1 r]|] eqn:E; [|discriminate].
  apply forEachFilter_readonly in E as ->; [|exact Hp].
  destruct (new_spec (ObjArray r) h) as (k' & -> & Hfresh & _).
  intros [= <- <-]. split; [exact Hfresh|]. now exists r.
Qed.

Lemma restrictGroupJs_extends lowerTerm g h h' g' :
  restrictGroupJs lowerTerm g h = Some (h', g') -> h ⊆ h'.
Proof.
  unfold restrictGroupJs. unfold bind at 1. unfold readGroup.
  destruct (h !! g) as [[|fo fi|]|]; try discriminate. cbn [fst snd].
  unfold bind at 1.
  destruct (Array_filter fi (keepFileJs lowerTerm) h) as [[h1 k]|] eqn:E;
    [|discriminate].
  apply Array_filter_adds in E as [Hk [es ->]];
    [|intros e h0 h1' b; apply keepFileJs_readonly].
  destruct (new_spec (ObjGroup fo k) (<[k := ObjArray es]> h))
    as (g'' & -> & _ & Hsub).
  intros [= <- _]. transitivity (<[k := ObjArray es]> h); [|exact Hsub].
  now apply insert_subseteq.
Qed.

Lemma forEachMap_extends lowerTerm es : forall h h' r,
  forEachMap (restrictGroupJs lowerTerm) es h = Some (h', r) -> h ⊆ h'.
Proof.
  induction es as [|e es IH]; intros h h' r; cbn [forEachMap].
  - unfold ret. now intros [= <- _].
  - unfold bind at 1.
    destruct (restrictGroupJs lowerTerm e h) as [[h1 a]|] eqn:E; [|discriminate].
    apply restrictGroupJs_extends in E. unfold bind at 1.
    destruct (forEachMap (restrictGroupJs lowerTerm) es h1) as [[h2 r']|] eqn:E2;
      [|discriminate].
    apply IH in E2. unfold ret. intros [= <- _]. now transitivity h1.
Qed.

(** A group whose [files] is not an array stops the [map]. *)
Lemma forEachMap_throws lowerTerm g es : forall h,
  In g es ->
  (forall h', h ⊆ h' -> restrictGroupJs lowerTerm g h' = None) ->
  forEachMap (restrictGroupJs lowerTerm) es h = None.
Proof.
  induction es as [|e es IH]; intros h Hin Hg; [destruct Hin|].
  cbn [forEachMap]. unfold bind at 1.
  destruct (restrictGroupJs lowerTerm e h) as [[h1 a]|] eqn:E; [|reflexivity].
  destruct Hin as [-> | Hin]; [now rewrite (Hg h) in E|].
  unfold bind at 1. rewrite (IH h1 Hin); [reflexivity|].
  intros h' Hh'. apply Hg. transitivity h1; [|exact Hh'].
  now apply restrictGroupJs_extends in E.
Qed.

End StoreAny.

(** X27.  The [useMemo] writes to no object that exists, whatever the
    store holds, a malformed catalog included: when it returns, the old
    store is a part of the new one.  Without a search term the result
    is the catalog array itself and nothing is allocated; under a term
    the result is an array that did not exist before. *)
Theorem filteredDataJs_never_writes {LC : LowerCase}
    (h h' : store) (r r' : positive) (t : list N) :
  filteredDataJs r t h = Some (h', r') ->
  h ⊆ h' /\
  (t = [] -> h' = h /\ r' = r) /\
  (t <> [] -> h !! r' = None).
Proof.
  destruct t as [|c t].
  - cbn. intros [= <- <-]. split; [reflexivity|]. split; [now split | congruence].
  - unfold filteredDataJs. cbn [falsyUnits]. unfold bind at 1.
    unfold Array_map. unfold bind at 1. unfold readArray.
    destruct (h !! r) as [[| |es]|]; try discriminate. unfold bind at 1.
    destruct (forEachMap _ es h) as [[h1 gs]|] eqn:E; [|discriminate].
    apply forEachMap_extends in E.
    destruct (new_spec (ObjArray gs) h1) as (m & -> & _ & Hsub).
    intros Hrun.
    apply Array_filter_adds in Hrun as [Hk [es' ->]];
      [|intros e h0 h1' b; apply hasFilesJs_readonly].
    assert (Hall : h ⊆ <[m := ObjArray gs]> h1) by now transitivity h1.
    split; [|split; [discriminate|]].
    + transitivity (<[m := ObjArray gs]> h1); [exact Hall|].
      now apply insert_subseteq.
    + intros _. destruct (h !! r') as [o|] eqn:Ho; [|reflexivity].
      now rewrite (lookup_weaken _ _ _ _ Ho Hall) in Hk.
Qed.

Lemma filteredDataJs_never_writes_witness :
  let a := {| path := "a.cs"; name := u "a.cs"; explanation := ""; code := "" |} in
  let h : store :=
    <[4%positive := ObjArray [3%positive]]>
      (<[3%positive := ObjGroup "." 2]>
         (<[2%positive := ObjArray [1%positive]]>
            (<[1%positive := ObjFile a]> ∅))) in
  exists h',
    filteredDataJs 4 (u "a") h = Some (h', 8%positive) /\
    h ⊆ h' /\
    h !! 8%positive = None /\
    h' !! 8%positive = Some (ObjArray [6%positive]) /\
    h' !! 6%positive = Some (ObjGroup "." 5) /\
    h' !! 5%positive = Some (ObjArray [1%positive]).
Proof.
  intros a h.
  destruct (filteredDataJs 4 (u "a") h) as [[h' r']|] eqn:E;
    [|vm_compute in E; discriminate E].
  assert (Hr : r' = 8%positive).
  { vm_compute in E. now injection E as _ <-. }
  subst r'. exists h'. split; [reflexivity|].
  destruct (filteredDataJs_never_writes h h' 4 8 (u "a") E) as (Hsub & _ & Hnew).
  split; [exact Hsub|]. split; [apply Hnew; discriminate|].
  vm_compute in E. injection E as <-. repeat split.
Defined.

(** X28.  A malformed catalog is not guarded against: when some group
    of the catalog array has a [files] field that is not an array, the
    [useMemo] throws for every non-empty search term, and without a
    term it returns the catalog untouched. *)
Theorem filteredDataJs_malformed {LC : LowerCase} (h : store) (r g fi : positive)
    (es : list positive) (fo : string) (o : object) (t : list N) :
  h !! r = Some (ObjArray es) ->
  In g es ->
  h !! g = Some (ObjGroup fo fi) ->
  h !! fi = Some o ->
  (forall arr, o <> ObjArray arr) ->
  (t <> [] -> filteredDataJs r t h = None) /\
  filteredDataJs r [] h = Some (h, r).
Proof.
  intros Hr Hin Hg Hfi Ho. split; [|reflexivity].
  intros Ht. destruct t as [|c t]; [contradiction|].
  unfold filteredDataJs. cbn [falsyUnits]. unfold bind at 1.
  unfold Array_map. unfold bind at 1. unfold readArray. rewrite Hr.
  unfold bind at 1. rewrite (forEachMap_throws _ g es h Hin); [reflexivity|].
  intros h' Hh'. unfold restrictGroupJs. unfold bind at 1. unfold readGroup.
  rewrite (lookup_weaken _ _ _ _ Hg Hh'). cbn [fst snd]. unfold bind at 1.
  unfold Array_filter. unfold bind at 1. unfold readArray.
  rewrite (lookup_weaken _ _ _ _ Hfi Hh').
  destruct o as [f|fo' fi'|arr]; try reflexivity. now destruct (Ho arr).
Qed.

Lemma filteredDataJs_malformed_witness :
  let a := {| path := "a.cs"; name := u "a.cs"; explanation := ""; code := "" |} in
  let h : store :=
    <[3%positive := ObjArray [2%positive]]>
      (<[2%positive := ObjGroup "." 1]> (<[1%positive := ObjFile a]> ∅)) in
  filteredDataJs 3 (u "a") h = None.
Proof.
  intros a h.
  apply (proj1 (filteredDataJs_malformed h 3 2 1 [2%positive] "." (ObjFile a) (u "a")
                  eq_refl (or_introl eq_refl) eq_refl eq_refl
                  ltac:(discriminate))).
  discriminate.
Defined.

(** ** Folder headings *)

(** X29.  The heading of a folder is its name, but for the root group,
    which reads "Root".  Two folders on the page with the same heading
    have the same name, or one is the root group and the other a
    folder that is called "Root". *)
Theorem folder_headings (o1 o2 : bool) (p1 p2 : option string)
    (g1 g2 : folderGroup) (n1 n2 : FolderNode) :
  FolderGroup o1 p1 g1 = Some n1 ->
  FolderGroup o2 p2 g2 = Some n2 ->
  node_displayName n1 = (if String.eqb (folder g1) "." then "Root" else folder g1) /\
  (node_displayName n1 = node_displayName n2 ->
   folder g1 = folder g2 \/
   (folder g1 = "." /\ folder g2 = "Root") \/
   (folder g1 = "Root" /\ folder g2 = ".")).
Proof.
  unfold FolderGroup.
  destruct (length (files g1) =? 0)%nat; [discriminate|].
  destruct (length (files g2) =? 0)%nat; [discriminate|].
  intros [= <-] [= <-]. cbn [node_displayName]. split; [reflexivity|].
  destruct (String.eqb_spec (folder g1) "."), (String.eqb_spec (folder g2) ".");
    intros H; auto; left; congruence.
Qed.

Lemma folder_headings_witness :
  let f := {| path := "x"; name := u "x"; explanation := ""; code := "" |} in
  let root := {| folder := "."; files := [f] |} in
  let named := {| folder := "Root"; files := [f] |} in
  folder root = folder named \/
  (folder root = "." /\ folder named = "Root") \/
  (folder root = "Root" /\ folder named = ".").
Proof.
  intros f root named.
  apply (proj2 (folder_headings true true None None root named _ _
                  eq_refl eq_refl)).
  reflexivity.
Defined.
